(** * resize-images: a shallow embedding of [resize-images.go]

  The program resizes every JPEG of a directory to a list of sizes.
  This development embeds

  - the sequential prelude of [main] (directory validation, size
    parsing, source enumeration) as functions over an abstract
    operating-system interface, and
  - the goroutine pipeline ([readImages], [readImage], [resizeImages],
    [resizeImage]) as an interleaving transition system over buffered
    channels,

  together with the pieces of the Go standard library the program calls
  ([strings.FieldsFunc], [strconv.ParseInt], [strings.Replace],
  [filepath.Base], [filepath.Ext], [filepath.Join], [filepath.Glob]),
  modelled for a Unix target with 64-bit [int]. *)

From Stdlib Require Import ZArith Lia Ascii String DecimalString DecimalZ.
From stdpp Require Import base decidable option list strings relations.

Local Open Scope Z_scope.

(** Go strings are byte sequences. *)
Definition gostring := list ascii.

Definition str (s : string) : gostring := list_ascii_of_string s.
Arguments str : simpl never.

Definition byte_of (c : ascii) : Z := Z.of_N (N_of_ascii c).

Definition is_byte (c d : ascii) : bool := Ascii.eqb c d.
Arguments is_byte : simpl never.

(** ** Package strings *)
Module Strings.

(** [strings.Split]-like cutting at every byte satisfying [f]; the
    result always has at least one (possibly empty) field. *)
Fixpoint cut (f : ascii → bool) (s : gostring) : list gostring :=
  match s with
  | [] => [[]]
  | c :: s' =>
      if f c then [] :: cut f s'
      else match cut f s' with
           | h :: t => (c :: h) :: t
           | [] => [[c]]
           end
  end.

Definition nonempty (t : gostring) : bool :=
  match t with [] => false | _ :: _ => true end.

(** [strings.FieldsFunc(s, f)]: the maximal runs of bytes not
    satisfying [f]; empty fields are dropped.  Go hands runes to [f];
    for a predicate that only accepts an ASCII byte (as [isComma]
    does) cutting bytes and cutting runes coincide, since no byte of a
    multi-byte UTF-8 sequence is below 128. *)
Definition FieldsFunc (s : gostring) (f : ascii → bool) : list gostring :=
  List.filter nonempty (cut f s).

Fixpoint HasPrefix (s p : gostring) : bool :=
  match p, s with
  | [], _ => true
  | a :: p', b :: s' => is_byte a b && HasPrefix s' p'
  | _ :: _, [] => false
  end.

(** The scan of [strings.Replace] for a non-empty [old] and [n < 0]:
    every non-overlapping occurrence, leftmost first, becomes [new].
    [skip] counts the bytes of a matched occurrence still to drop. *)
Fixpoint replaceScan (old new s : gostring) (skip : nat) : gostring :=
  match s with
  | [] => []
  | c :: s' =>
      match skip with
      | S k => replaceScan old new s' k
      | O =>
          if HasPrefix s old
          then new ++ replaceScan old new s' (length old - 1)
          else c :: replaceScan old new s' 0
      end
  end.

(** [strings.Replace(s, old, "", -1)], the only way the program calls
    it.  [Replace] returns [s] unchanged when [old == new], which here
    is the case of an empty [old]. *)
Definition ReplaceAllEmpty (s old : gostring) : gostring :=
  if bool_decide (old = []) then s else replaceScan old [] s 0.

(** [strings.TrimSuffix]: used only to phrase what stripping one
    trailing extension means. *)
Definition TrimSuffix (s suffix : gostring) : gostring :=
  if HasPrefix (rev s) (rev suffix)
  then take (length s - length suffix) s
  else s.

Definition Contains (s : gostring) (c : ascii) : bool :=
  existsb (is_byte c) s.

End Strings.

(** ** Package strconv *)
Module Strconv.

Inductive NumError := ErrSyntax | ErrRange.

#[global] Instance NumError_eq_dec : EqDecision NumError.
Proof. solve_decision. Defined.

Definition IntSize : Z := 64.
Definition maxUint64 : Z := 2 ^ 64 - 1.

Definition isDigit (c : ascii) : bool :=
  (byte_of "0" <=? byte_of c) && (byte_of c <=? byte_of "9").

(** The loop of [ParseUint(s, 10, 0)] over the bytes of [s], with the
    accumulator [n] an unsigned 64-bit word.  A byte that is no
    decimal digit is a syntax error; an accumulator at or beyond
    [cutoff] would overflow on [n *= 10]; the addition of the digit is
    checked after it wrapped. *)
Fixpoint parseUintLoop (s : gostring) (n : Z) : Z * option NumError :=
  match s with
  | [] => (n, None)
  | c :: s' =>
      if negb (isDigit c) then (0, Some ErrSyntax)
      else
        let d := byte_of c - byte_of "0" in
        let cutoff := maxUint64 / 10 + 1 in
        if cutoff <=? n then (maxUint64, Some ErrRange)
        else
          let n10 := (n * 10) mod 2 ^ 64 in
          let n1 := (n10 + d) mod 2 ^ 64 in
          if (n1 <? n10) || (maxUint64 <? n1) then (maxUint64, Some ErrRange)
          else parseUintLoop s' n1
  end.

Definition ParseUint10 (s : gostring) : Z * option NumError :=
  match s with
  | [] => (0, Some ErrSyntax)
  | _ => parseUintLoop s 0
  end.

(** [strconv.ParseInt(s, 10, 0)]: an optional sign, then
    [ParseUint]; the magnitude must fit a signed [IntSize]-bit word. *)
Definition ParseInt10 (s : gostring) : Z * option NumError :=
  match s with
  | [] => (0, Some ErrSyntax)
  | c :: s' =>
      let neg := is_byte c "-" in
      let body := if is_byte c "+" || is_byte c "-" then s' else s in
      let '(un, err) := ParseUint10 body in
      match err with
      | Some ErrSyntax => (0, err)
      | _ =>
          let cutoff := 2 ^ (IntSize - 1) in
          if negb neg && (cutoff <=? un) then (cutoff - 1, Some ErrRange)
          else if neg && (cutoff <? un) then (- cutoff, Some ErrRange)
          else (if neg then - un else un, None)
      end
  end.

(** [%d] of [fmt.Sprintf], i.e. [strconv.Itoa]. *)
Definition Itoa (i : Z) : gostring :=
  str (NilZero.string_of_int (Z.to_int i)).

End Strconv.

(** ** The program's own sequential code: [parseSizes] *)

Inductive error :=
| ErrNoDirectory (path : gostring)      (* "directory %v doesn't exist" *)
| ErrNotDirectory (path : gostring)     (* "%v is not a directory" *)
| ErrOS (code : nat)                    (* an error of package os *)
| ErrNotValidSize (s : gostring)        (* "%s is not a valid size" *)
| ErrSizeRange (s : gostring)           (* "size %s is out of the valid range" *)
| ErrLessThanZero (i : Z)               (* "size %d is less than zero" *)
| ErrBadPattern.                        (* filepath.ErrBadPattern *)

Definition isComma (r : ascii) : bool := is_byte r ",".

(** What the body of the [for] loop of [parseSizes] does with one
  token: [inr] is an early [return nil, err], [inl i] the value it
  appends. *)
Definition parseToken (s t : gostring) : Z + error :=
let '(i, err) := Strconv.ParseInt10 t in
if bool_decide (err = Some Strconv.ErrSyntax) then inr (ErrNotValidSize s)
else if bool_decide (err = Some Strconv.ErrRange) then inr (ErrSizeRange s)
else if i <? 0 then inr (ErrLessThanZero i)
else inl i.

Fixpoint parseSizesLoop (s : gostring) (ts : list gostring) (sizes : list Z)
: list Z + error :=
match ts with
| [] => inl sizes
| t :: ts' =>
    match parseToken s t with
    | inr e => inr e
    | inl i => parseSizesLoop s ts' (sizes ++ [i])
    end
end.

Definition parseSizes (s : gostring) : list Z + error :=
parseSizesLoop s (Strings.FieldsFunc s isComma) [].


(** ** Package unicode/utf8 *)
Module Utf8.

Definition RuneError : Z := 65533.

Definition between (lo b hi : Z) : bool := (lo <=? b) && (b <=? hi).

(** [utf8.DecodeRuneInString]: the first rune of [s] and its width in
    bytes; [(RuneError, 0)] on the empty string and [(RuneError, 1)]
    on an invalid encoding. *)
Definition DecodeRuneInString (s : gostring) : Z * nat :=
  match s with
  | [] => (RuneError, 0%nat)
  | c0 :: t =>
      let b0 := byte_of c0 in
      if b0 <? 128 then (b0, 1%nat)
      else if between 194 b0 223 then
        match t with
        | c1 :: _ =>
            let b1 := byte_of c1 in
            if between 128 b1 191
            then ((b0 mod 32) * 64 + b1 mod 64, 2%nat)
            else (RuneError, 1%nat)
        | _ => (RuneError, 1%nat)
        end
      else if between 224 b0 239 then
        match t with
        | c1 :: c2 :: _ =>
            let b1 := byte_of c1 in
            let b2 := byte_of c2 in
            let lo := if b0 =? 224 then 160 else 128 in
            let hi := if b0 =? 237 then 159 else 191 in
            if between lo b1 hi && between 128 b2 191
            then ((b0 mod 16) * 4096 + (b1 mod 64) * 64 + b2 mod 64, 3%nat)
            else (RuneError, 1%nat)
        | _ => (RuneError, 1%nat)
        end
      else if between 240 b0 244 then
        match t with
        | c1 :: c2 :: c3 :: _ =>
            let b1 := byte_of c1 in
            let b2 := byte_of c2 in
            let b3 := byte_of c3 in
            let lo := if b0 =? 240 then 144 else 128 in
            let hi := if b0 =? 244 then 143 else 191 in
            if between lo b1 hi && between 128 b2 191 && between 128 b3 191
            then ((b0 mod 8) * 262144 + (b1 mod 64) * 4096
                  + (b2 mod 64) * 64 + b3 mod 64, 4%nat)
            else (RuneError, 1%nat)
        | _ => (RuneError, 1%nat)
        end
      else (RuneError, 1%nat)
  end.

End Utf8.

(** ** Package path/filepath (Unix: the separator is the slash, there
  are no volume names) *)
Module Filepath.

Definition isSlash (c : ascii) : bool := is_byte c "/".

Fixpoint dropSlashes (r : gostring) : gostring :=
  match r with
  | c :: r' => if isSlash c then dropSlashes r' else r
  | [] => []
  end.

Fixpoint untilSlash (r : gostring) : gostring :=
  match r with
  | c :: r' => if isSlash c then [] else c :: untilSlash r'
  | [] => []
  end.

(** [filepath.Base]: the last element of the path, trailing slashes
    removed first; [.] for the empty path and [/] for a path of
    slashes only.  The scans run from the end, hence the reversals. *)
Definition Base (path : gostring) : gostring :=
  match path with
  | [] => str "."
  | _ =>
      match rev (untilSlash (dropSlashes (rev path))) with
      | [] => str "/"
      | elem => elem
      end
  end.

(** The backwards scan of [filepath.Ext] over the reversed path:
    [acc] holds the bytes already passed. *)
Fixpoint extScan (r acc : gostring) : gostring :=
  match r with
  | [] => []
  | c :: r' =>
      if isSlash c then []
      else if is_byte c "." then c :: acc
      else extScan r' (c :: acc)
  end.

(** [filepath.Ext]: the suffix starting at the final dot of the last
    element, empty when there is none. *)
Definition Ext (path : gostring) : gostring := extScan (rev path) [].

Fixpoint joinSlash (l : list gostring) : gostring :=
  match l with
  | [] => []
  | [a] => a
  | a :: l' => a ++ str "/" ++ joinSlash l'
  end.

(** One path element met by [Clean]; [st] is the stack of elements
    kept so far, the most recent first. *)
Definition cleanStep (rooted : bool) (st : list gostring) (c : gostring)
  : list gostring :=
  if bool_decide (c = []) || bool_decide (c = str ".") then st
  else if bool_decide (c = str "..") then
    match st with
    | top :: st' => if bool_decide (top = str "..") then c :: st else st'
    | [] => if rooted then [] else [c]
    end
  else c :: st.

(** [filepath.Clean]: the shortest equivalent path by purely lexical
    processing. *)
Definition Clean (path : gostring) : gostring :=
  match path with
  | [] => str "."
  | c0 :: _ =>
      let rooted := isSlash c0 in
      let st := fold_left (cleanStep rooted) (Strings.cut isSlash path) [] in
      if rooted then str "/" ++ joinSlash (rev st)
      else match st with
           | [] => str "."
           | _ => joinSlash (rev st)
           end
  end.

(** [filepath.Join] of two elements: leading empty elements are
    skipped, the rest is joined by slashes and cleaned. *)
Definition Join (a b : gostring) : gostring :=
  match a, b with
  | [], [] => []
  | [], _ => Clean b
  | _, _ => Clean (a ++ str "/" ++ b)
  end.

(** [filepath.Split]: the directory part ends with the final slash. *)
Definition Split (path : gostring) : gostring * gostring :=
  let file := rev (untilSlash (rev path)) in
  (take (length path - length file) path, file).

Definition hasMeta (path : gostring) : bool :=
  existsb (λ c, is_byte c "*" || is_byte c "?" || is_byte c "["
                || is_byte c "\") path.

(** *** [filepath.Match] *)

Fixpoint dropStars (p : gostring) : bool * gostring :=
  match p with
  | c :: p' => if is_byte c "*" then (true, snd (dropStars p')) else (false, p)
  | [] => (false, [])
  end.

(** The scan of [scanChunk] after the leading stars: the chunk runs
    to the first star outside a character class; a backslash takes
    the next byte with it. *)
Fixpoint scanBody (p : gostring) (inrange escaped : bool)
  : gostring * gostring :=
  match p with
  | [] => ([], [])
  | c :: p' =>
      let keep ir esc := let '(a, b) := scanBody p' ir esc in (c :: a, b) in
      if escaped then keep inrange false
      else if is_byte c "\" then keep inrange true
      else if is_byte c "[" then keep true false
      else if is_byte c "]" then keep false false
      else if is_byte c "*" && negb inrange then ([], p)
      else keep inrange false
  end.

Definition scanChunk (pattern : gostring) : bool * gostring * gostring :=
  let '(star, p) := dropStars pattern in
  let '(chunk, rest) := scanBody p false false in
  (star, chunk, rest).

(** [getEsc]: a possibly escaped rune of a character class; [None] is
    [ErrBadPattern]. *)
Definition getEsc (chunk : gostring) : option (Z * gostring) :=
  match chunk with
  | [] => None
  | c :: t =>
      if is_byte c "-" || is_byte c "]" then None
      else
        let chunk1 := if is_byte c "\" then t else chunk in
        match chunk1 with
        | [] => None
        | _ =>
            let '(r, n) := Utf8.DecodeRuneInString chunk1 in
            let nchunk := drop n chunk1 in
            if (r =? Utf8.RuneError) && (n =? 1)%nat then None
            else match nchunk with [] => None | _ => Some (r, nchunk) end
        end
  end.

(** The loop over the ranges of one character class. *)
Fixpoint classLoop (fuel : nat) (chunk : gostring) (r : Z)
    (matched some : bool) : option (bool * gostring) :=
  match fuel with
  | O => None
  | S fuel' =>
      match chunk with
      | c :: t =>
          if is_byte c "]" && some then Some (matched, t)
          else
            match getEsc chunk with
            | None => None
            | Some (lo, chunk1) =>
                match chunk1 with
                | d :: t1 =>
                    if is_byte d "-" then
                      match getEsc t1 with
                      | None => None
                      | Some (hi, chunk2) =>
                          classLoop fuel' chunk2 r
                            (matched || ((lo <=? r) && (r <=? hi))) true
                      end
                    else classLoop fuel' chunk1 r (matched || (lo =? r)) true
                | [] => None
                end
            end
      | [] => None
      end
  end.

(** [matchChunk]: [None] is [ErrBadPattern], [Some None] no match,
    [Some (Some rest)] a match of a prefix of [s] leaving [rest]. *)
Fixpoint matchChunkLoop (fuel : nat) (chunk s : gostring) (failed : bool)
  : option (option gostring) :=
  match fuel with
  | O => match chunk with
         | [] => Some (if failed then None else Some s)
         | _ => None
         end
  | S fuel' =>
      match chunk with
      | [] => Some (if failed then None else Some s)
      | c :: chunk' =>
          let failed := failed || negb (Strings.nonempty s) in
          let literal (l : ascii) (rest : gostring) :=
            if failed then matchChunkLoop fuel' rest s true
            else match s with
                 | b :: s' => matchChunkLoop fuel' rest s' (negb (is_byte l b))
                 | [] => matchChunkLoop fuel' rest s true
                 end in
          if is_byte c "[" then
            let '(r, s1) :=
              if failed then (0, s)
              else let '(r, n) := Utf8.DecodeRuneInString s in (r, drop n s) in
            let '(negated, chunk1) :=
              match chunk' with
              | d :: t => if is_byte d "^" then (true, t) else (false, chunk')
              | [] => (false, chunk')
              end in
            match classLoop (S (length chunk1)) chunk1 r false false with
            | None => None
            | Some (m, chunk2) =>
                matchChunkLoop fuel' chunk2 s1 (failed || eqb m negated)
            end
          else if is_byte c "?" then
            if failed then matchChunkLoop fuel' chunk' s true
            else
              let '(_, n) := Utf8.DecodeRuneInString s in
              matchChunkLoop fuel' chunk' (drop n s)
                (match s with b :: _ => isSlash b | [] => false end)
          else if is_byte c "\" then
            match chunk' with
            | [] => None
            | l :: rest => literal l rest
            end
          else literal c chunk'
      end
  end.

Definition matchChunk (chunk s : gostring) : option (option gostring) :=
  matchChunkLoop (length chunk) chunk s false.

(** The inner loop of [Match] for a chunk after a star: skip one more
    byte of the name, never a slash, and try again.  [last] says that
    the pattern is exhausted, so that the chunk must use up the name. *)
Fixpoint starLoop (chunk : gostring) (last : bool) (name : gostring)
  : option (option gostring) :=
  match name with
  | [] => Some None
  | c :: name' =>
      if isSlash c then Some None
      else match matchChunk chunk name' with
           | None => None
           | Some (Some t) =>
               if last && Strings.nonempty t then starLoop chunk last name'
               else Some (Some t)
           | Some None => starLoop chunk last name'
           end
  end.

(** The syntax check of the remaining pattern before [Match] answers
    [false]. *)
Fixpoint checkRest (fuel : nat) (pattern : gostring) : bool :=
  match fuel with
  | O => true
  | S fuel' =>
      match pattern with
      | [] => true
      | _ =>
          let '(_, chunk, rest) := scanChunk pattern in
          match matchChunk chunk [] with
          | None => false
          | Some _ => checkRest fuel' rest
          end
      end
  end.

(** [filepath.Match]; [None] is [ErrBadPattern]. *)
Fixpoint matchLoop (fuel : nat) (pattern name : gostring) : option bool :=
  match pattern with
  | [] => Some (negb (Strings.nonempty name))
  | _ =>
      match fuel with
      | O => None
      | S fuel' =>
          let '(star, chunk, rest) := scanChunk pattern in
          if star && negb (Strings.nonempty chunk)
          then Some (negb (Strings.Contains name "/"))
          else
            let giveUp :=
              if checkRest (length rest) rest then Some false else None in
            let afterStar :=
              if star then
                match starLoop chunk (negb (Strings.nonempty rest)) name with
                | None => None
                | Some (Some t) => matchLoop fuel' rest t
                | Some None => giveUp
                end
              else giveUp in
            match matchChunk chunk name with
            | None => None
            | Some (Some t) =>
                if negb (Strings.nonempty t) || Strings.nonempty rest
                then matchLoop fuel' rest t
                else afterStar
            | Some None => afterStar
            end
      end
  end.

Definition Match (pattern name : gostring) : option bool :=
  matchLoop (length pattern) pattern name.

End Filepath.


(** ** The operating system, as far as [main] talks to it *)

Inductive stat_result :=
| StatOk (isDir : bool)
| StatNotExist                 (* an error for which [os.IsNotExist] holds *)
| StatErr (code : nat).        (* any other error *)

(** The file-system calls made before the pipeline starts.  [World] is
  the state of the file system; only [os.MkdirAll] changes it. *)
Class OS (World : Type) := {
os_Stat : World → gostring → stat_result;
os_Lstat : World → gostring → bool;
os_MkdirAll : World → gostring → World * option error;
(** [os.Open] of a directory followed by [Readdirnames(-1)]; [None]
    when the directory cannot be opened. *)
os_Readdirnames : World → gostring → option (list gostring);
}.

(** Byte-wise lexicographic order, the order of Go's [<] on strings. *)
Fixpoint strLess (a b : gostring) : bool :=
match a, b with
| _, [] => false
| [], _ :: _ => true
| x :: a', y :: b' =>
    if byte_of x <? byte_of y then true
    else if byte_of y <? byte_of x then false
    else strLess a' b'
end.

Fixpoint insertSorted (x : gostring) (l : list gostring) : list gostring :=
match l with
| [] => [x]
| y :: l' => if strLess x y then x :: l else y :: insertSorted x l'
end.

(** [slices.Sort] on strings. *)
Definition sortStrings (l : list gostring) : list gostring :=
foldr insertSorted [] l.

Section Prelude.
Context {World : Type} `{!OS World}.

(** The loop of [glob] over the sorted names of one directory. *)
Fixpoint globNames (dir pattern : gostring) (names m : list gostring)
  : list gostring * option error :=
  match names with
  | [] => (m, None)
  | n :: names' =>
      match Filepath.Match pattern n with
      | None => (m, Some ErrBadPattern)
      | Some true => globNames dir pattern names' (m ++ [Filepath.Join dir n])
      | Some false => globNames dir pattern names' m
      end
  end.

(** [filepath.glob]: the entries of [dir] matching [pattern] are
    appended to [matches]; I/O errors are ignored. *)
Definition glob (w : World) (dir pattern : gostring) (matches : list gostring)
  : list gostring * option error :=
  match os_Stat w dir with
  | StatOk true =>
      match os_Readdirnames w dir with
      | Some names => globNames dir pattern (sortStrings names) matches
      | None => (matches, None)
      end
  | _ => (matches, None)
  end.

Definition cleanGlobPath (path : gostring) : gostring :=
  if bool_decide (path = []) then str "."
  else if bool_decide (path = str "/") then path
  else take (length path - 1) path.

Fixpoint globEach (w : World) (file : gostring) (dirs matches : list gostring)
  : list gostring * option error :=
  match dirs with
  | [] => (matches, None)
  | d :: dirs' =>
      match glob w d file matches with
      | (m, None) => globEach w file dirs' m
      | (m, Some e) => (m, Some e)
      end
  end.

(** [filepath.globWithLimit]; [fuel] is what is left of
    [pathSeparatorsLimit] at this depth. *)
Fixpoint globWithLimit (fuel : nat) (w : World) (pattern : gostring)
  : list gostring * option error :=
  match fuel with
  | O => ([], Some ErrBadPattern)
  | S fuel' =>
      match Filepath.Match pattern [] with
      | None => ([], Some ErrBadPattern)
      | Some _ =>
          if negb (Filepath.hasMeta pattern) then
            (if os_Lstat w pattern then [pattern] else [], None)
          else
            let '(dir0, file) := Filepath.Split pattern in
            let dir := cleanGlobPath dir0 in
            if negb (Filepath.hasMeta dir) then glob w dir file []
            else if bool_decide (dir = pattern) then ([], Some ErrBadPattern)
            else
              match globWithLimit fuel' w dir with
              | (_, Some e) => ([], Some e)
              | (m, None) => globEach w file m []
              end
      end
  end.

Definition pathSeparatorsLimit : nat := Z.to_nat 10000.

(** [filepath.Glob]. *)
Definition Glob (w : World) (pattern : gostring) : list gostring * option error :=
  globWithLimit pathSeparatorsLimit w pattern.

(** [validateDirectory] of the program. *)
Definition validateDirectory (w : World) (path : gostring) (mustExist : bool)
  : option error :=
  match os_Stat w path with
  | StatNotExist => if mustExist then Some (ErrNoDirectory path) else None
  | StatErr code => Some (ErrOS code)
  | StatOk isDir => if negb isDir then Some (ErrNotDirectory path) else None
  end.

(** [try] of the program: the first non-nil error is the one handed
    to [log.Fatal]. *)
Fixpoint try (errs : list (option error)) : option error :=
  match errs with
  | [] => None
  | Some e :: _ => Some e
  | None :: errs' => try errs'
  end.

(** The calls to the operating system, in program order. *)
Inductive oscall :=
  | CallStat (path : gostring)
  | CallMkdirAll (path : gostring)
  | CallGlob (pattern : gostring).

Inductive fatal :=
  | FatalErr (e : error)            (* [try] *)
  | FatalParseSizes (e : error)     (* "can't parse sizes:" *)
  | FatalNoSizes                    (* "no sizes specified" *)
  | FatalGlob (e : error)           (* "can't get image filenames:" *)
  | FatalNoImages.                  (* "no images to resize" *)

(** How the sequential part of [main] ends: the process has exited,
    or the two pipeline goroutines are started on [files], [sizes]
    and [toPath]. *)
Inductive outcome :=
  | Exit (status : Z) (msg : fatal)
  | StartPipeline (files : list gostring) (sizes : list Z) (toPath : gostring).

(** [log.Fatal] prints and calls [os.Exit(1)]. *)
Definition log_Fatal (msg : fatal) : outcome := Exit 1 msg.

(** The arguments of [try] in [main]: all three are evaluated, left
    to right, before [try] looks at any of them. *)
Definition validate (w : World) (fromPath toPath : gostring)
  : World * list oscall * option error :=
  let e1 := validateDirectory w fromPath true in
  let e2 := validateDirectory w toPath false in
  let '(w1, e3) := os_MkdirAll w toPath in
  (w1, [CallStat fromPath; CallStat toPath; CallMkdirAll toPath],
   try [e1; e2; e3]).

(** Lines 38 to 60 of [main], with the three flags as arguments. *)
Definition main (w : World) (fromPath toPath sizesString : gostring)
  : World * list oscall * outcome :=
  let '(w1, calls, verr) := validate w fromPath toPath in
  match verr with
  | Some e => (w1, calls, log_Fatal (FatalErr e))
  | None =>
      match parseSizes sizesString with
      | inr e => (w1, calls, log_Fatal (FatalParseSizes e))
      | inl sizes =>
          if (length sizes <=? 0)%nat then (w1, calls, log_Fatal FatalNoSizes)
          else
            let pattern := Filepath.Join fromPath (str "*.jpg") in
            let '(files, gerr) := Glob w1 pattern in
            let calls' := calls ++ [CallGlob pattern] in
            match gerr with
            | Some e => (w1, calls', log_Fatal (FatalGlob e))
            | None =>
                if (length files <=? 0)%nat
                then (w1, calls', log_Fatal FatalNoImages)
                else (w1, calls', StartPipeline files sizes toPath)
            end
      end
  end.

End Prelude.

(** A concrete file system for examples: the directories with their
  entries; every other path does not exist.  [os.MkdirAll] adds an
  empty directory when the path is new. *)
Definition dirs := list (gostring * list gostring).

Fixpoint lookupDir (w : dirs) (path : gostring) : option (list gostring) :=
match w with
| [] => None
| (d, names) :: w' => if bool_decide (d = path) then Some names else lookupDir w' path
end.

#[global] Instance dirs_OS : OS dirs := {|
os_Stat w path :=
  match lookupDir w path with Some _ => StatOk true | None => StatNotExist end;
os_Lstat w path :=
  match lookupDir w path with Some _ => true | None => false end;
os_MkdirAll w path :=
  match lookupDir w path with
  | Some _ => (w, None)
  | None => (w ++ [(path, [])], None)
  end;
os_Readdirnames w path := lookupDir w path;
|}.


(** ** The goroutine pipeline

    Lines 62 to 67 of [main] start [readImages] and [resizeImages] and
    block on [<-finished].  The goroutines are modelled as an
    interleaving transition system: a state holds the control point of
    every goroutine and the contents of the four buffered channels, a
    step is one goroutine advancing to its next channel operation. *)

(** What the pipeline is run on.  [decode] and [create] are the
    environment: the outcome of [os.Open] followed by [jpeg.Decode] on
    a source path, and whether [os.Create] succeeds on an output path.
    [cap] is [runtime.GOMAXPROCS(0)], the capacity of every channel. *)
Record config (Image : Type) := Config {
  decode : gostring → option Image;
  create : gostring → bool;
  cap : nat;
  paths : list gostring;
  sizes : list Z;
  toPath : gostring;
}.
Arguments Config {Image}.
Arguments decode {Image}.
Arguments create {Image}.
Arguments cap {Image}.
Arguments paths {Image}.
Arguments sizes {Image}.
Arguments toPath {Image}.

(** [*imageData].  [ptr] is the identity of the allocation: the index
    of the [readImage] goroutine that made it. *)
Record imageData (Image : Type) := ImageData {
  ptr : nat;
  img : Image;
  name : gostring;
}.
Arguments ImageData {Image}.
Arguments ptr {Image}.
Arguments img {Image}.
Arguments name {Image}.

(** Line 148: the name stored with a decoded image. *)
Definition imageName (path : gostring) : gostring :=
  Strings.ReplaceAllEmpty (Filepath.Base path) (Filepath.Ext path).

(** Line 170: the file a resize task writes. *)
Definition outputPath (basePath name : gostring) (size : Z) : gostring :=
  Filepath.Join basePath (name ++ str "_" ++ Strconv.Itoa size ++ str ".jpg").

(** A [readImage] goroutine: spawned; decoded and about to send on
    [images]; about to run the deferred [finished <- 1]; returned. *)
Inductive reader (Image : Type) :=
  | RStart
  | RSend (d : imageData Image)
  | RDefer
  | RDone.
Arguments RStart {Image}.
Arguments RSend {Image}.
Arguments RDefer {Image}.
Arguments RDone {Image}.

(** [readImages]: in the spawning loop with [k] goroutines started; in
    the receiving loop with [i] signals taken; after [close(c)]. *)
Inductive loader :=
  | LSpawn (k : nat)
  | LWait (i : nat)
  | LClosed.

(** [resizeImages]: at the [range] over the channel; in the loop over
    the sizes still to do for the image [d]; in the receiving loop
    with [i] signals taken; after [allFinished <- 1]. *)
Inductive dispatcher (Image : Type) :=
  | DRange
  | DInner (d : imageData Image) (rest : list Z)
  | DWait (i : nat)
  | DDone.
Arguments DRange {Image}.
Arguments DInner {Image}.
Arguments DWait {Image}.
Arguments DDone {Image}.

(** A [resizeImage] goroutine: spawned; past create, resize and
    encode and about to run the deferred [finished <- 1]; returned. *)
Inductive wstage := WStart | WDefer | WDone.

Record worker (Image : Type) := Worker {
  w_img : imageData Image;
  w_size : Z;
  w_stage : wstage;
}.
Arguments Worker {Image}.
Arguments w_img {Image}.
Arguments w_size {Image}.
Arguments w_stage {Image}.

(** [main] blocked on [<-finished], or returned: the process has
    exited with that status. *)
Inductive mainst := MWait | MExited (status : Z).

Record state (Image : Type) := State {
  readers : list (reader Image);      (* reader [i] was given [paths[i]] *)
  lpc : loader;
  images : list (imageData Image);    (* buffer of [images], oldest first *)
  images_closed : bool;
  rfin : nat;                         (* buffer of [readImages]'s [finished] *)
  dpc : dispatcher Image;
  count : nat;
  workers : list (worker Image);
  wfin : nat;                         (* buffer of [resizeImages]'s [finished] *)
  afin : nat;                         (* buffer of [main]'s [finished] *)
  mpc : mainst;
  created : list gostring;            (* files made by [os.Create], latest first *)
}.
Arguments State {Image}.
Arguments readers {Image}.
Arguments lpc {Image}.
Arguments images {Image}.
Arguments images_closed {Image}.
Arguments rfin {Image}.
Arguments dpc {Image}.
Arguments count {Image}.
Arguments workers {Image}.
Arguments wfin {Image}.
Arguments afin {Image}.
Arguments mpc {Image}.
Arguments created {Image}.

Definition init {Image : Type} : state Image :=
  State [] (LSpawn 0) [] false 0 DRange 0 [] 0 0 MWait [].

(** What [readImage] does up to its first channel operation. *)
Definition readImage_start {Image : Type} (c : config Image) (i : nat)
    (path : gostring) : reader Image :=
  match decode c path with
  | Some im => RSend (ImageData i im (imageName path))
  | None => RDefer
  end.

(** What [resizeImage] does to the file system up to its deferred
    send: the file is there as soon as [os.Create] succeeded, whatever
    becomes of the encoding. *)
Definition resizeImage_files {Image : Type} (c : config Image)
    (d : imageData Image) (size : Z) (fs : list gostring) : list gostring :=
  let path := outputPath (toPath c) (name d) size in
  if create c path then path :: fs else fs.

(** One step of one goroutine.  A send needs room in the buffer, a
    receive needs a value (or, for [range], a closed and drained
    channel).  Nothing steps once [main] has returned. *)
Inductive step {Image : Type} (c : config Image)
  : state Image → state Image → Prop :=
  | l_spawn rs k im cl rf d n ws wf af cr p :
      paths c !! k = Some p →
      step c (State rs (LSpawn k) im cl rf d n ws wf af MWait cr)
             (State (rs ++ [RStart]) (LSpawn (S k)) im cl rf d n ws wf af MWait cr)
  | l_spawned rs k im cl rf d n ws wf af cr :
      paths c !! k = None →
      step c (State rs (LSpawn k) im cl rf d n ws wf af MWait cr)
             (State rs (LWait 0) im cl rf d n ws wf af MWait cr)
  | l_recv rs i im cl rf d n ws wf af cr :
      (i < length (paths c))%nat →
      step c (State rs (LWait i) im cl (S rf) d n ws wf af MWait cr)
             (State rs (LWait (S i)) im cl rf d n ws wf af MWait cr)
  | l_close rs i im cl rf d n ws wf af cr :
      ¬ (i < length (paths c))%nat →
      step c (State rs (LWait i) im cl rf d n ws wf af MWait cr)
             (State rs LClosed im true rf d n ws wf af MWait cr)
  | r_start rs1 rs2 l im cl rf d n ws wf af cr p :
      paths c !! length rs1 = Some p →
      step c (State (rs1 ++ RStart :: rs2) l im cl rf d n ws wf af MWait cr)
             (State (rs1 ++ readImage_start c (length rs1) p :: rs2)
                    l im cl rf d n ws wf af MWait cr)
  | r_send rs1 rs2 x l im rf d n ws wf af cr :
      (length im < cap c)%nat →
      step c (State (rs1 ++ RSend x :: rs2) l im false rf d n ws wf af MWait cr)
             (State (rs1 ++ RDefer :: rs2) l (im ++ [x]) false rf d n ws wf af MWait cr)
  | r_defer rs1 rs2 l im cl rf d n ws wf af cr :
      (rf < cap c)%nat →
      step c (State (rs1 ++ RDefer :: rs2) l im cl rf d n ws wf af MWait cr)
             (State (rs1 ++ RDone :: rs2) l im cl (S rf) d n ws wf af MWait cr)
  | d_recv rs l x im cl rf n ws wf af cr :
      step c (State rs l (x :: im) cl rf DRange n ws wf af MWait cr)
             (State rs l im cl rf (DInner x (sizes c)) n ws wf af MWait cr)
  | d_closed rs l rf n ws wf af cr :
      step c (State rs l [] true rf DRange n ws wf af MWait cr)
             (State rs l [] true rf (DWait 0) n ws wf af MWait cr)
  | d_spawn rs l im cl rf x z rest n ws wf af cr :
      step c (State rs l im cl rf (DInner x (z :: rest)) n ws wf af MWait cr)
             (State rs l im cl rf (DInner x rest) (S n)
                    (ws ++ [Worker x z WStart]) wf af MWait cr)
  | d_next rs l im cl rf x n ws wf af cr :
      step c (State rs l im cl rf (DInner x []) n ws wf af MWait cr)
             (State rs l im cl rf DRange n ws wf af MWait cr)
  | d_wait rs l im cl rf i n ws wf af cr :
      (i < n)%nat →
      step c (State rs l im cl rf (DWait i) n ws (S wf) af MWait cr)
             (State rs l im cl rf (DWait (S i)) n ws wf af MWait cr)
  | d_signal rs l im cl rf i n ws wf af cr :
      ¬ (i < n)%nat →
      (af < cap c)%nat →
      step c (State rs l im cl rf (DWait i) n ws wf af MWait cr)
             (State rs l im cl rf DDone n ws wf (S af) MWait cr)
  | w_start rs l im cl rf d n ws1 ws2 x z wf af cr :
      step c (State rs l im cl rf d n (ws1 ++ Worker x z WStart :: ws2) wf af MWait cr)
             (State rs l im cl rf d n (ws1 ++ Worker x z WDefer :: ws2) wf af MWait
                    (resizeImage_files c x z cr))
  | w_defer rs l im cl rf d n ws1 ws2 x z wf af cr :
      (wf < cap c)%nat →
      step c (State rs l im cl rf d n (ws1 ++ Worker x z WDefer :: ws2) wf af MWait cr)
             (State rs l im cl rf d n (ws1 ++ Worker x z WDone :: ws2) (S wf) af MWait cr)
  | m_exit rs l im cl rf d n ws wf af cr :
      step c (State rs l im cl rf d n ws wf (S af) MWait cr)
             (State rs l im cl rf d n ws wf af (MExited 0) cr).

(** The states a run can be in. *)
Definition reachable {Image : Type} (c : config Image) (s : state Image) : Prop :=
  rtc (step c) init s.

(** The final completion signal, the send on the channel [main] blocks
    on, has been made. *)
Definition signalled {Image : Type} (s : state Image) : Prop :=
  dpc s = DDone.

Definition exited {Image : Type} (s : state Image) : Prop :=
  ∃ status, mpc s = MExited status.

(** A load task has reported when its deferred send is done, and so
    has a resize task. *)
Definition reader_reported {Image : Type} (r : reader Image) : bool :=
  match r with RDone => true | _ => false end.

Definition worker_reported {Image : Type} (w : worker Image) : bool :=
  match w_stage w with WDone => true | _ => false end.

(** The load task is past its decoding, whether it succeeded or not. *)
Definition reader_decoded {Image : Type} (r : reader Image) : Prop :=
  r = RDefer ∨ r = RDone.

(** The image made by the load task of [paths[i]]. *)
Definition image_of {Image : Type} (c : config Image) (i : nat)
    (d : imageData Image) : Prop :=
  ∃ p im, paths c !! i = Some p ∧ decode c p = Some im
          ∧ d = ImageData i im (imageName p).

(** The images of all sources, in the order of [paths]; a source that
    does not decode has none. *)
Fixpoint decoded_from {Image : Type} (c : config Image) (i : nat)
    (ps : list gostring) : list (imageData Image) :=
  match ps with
  | [] => []
  | p :: ps' =>
      match decode c p with
      | Some im => ImageData i im (imageName p) :: decoded_from c (S i) ps'
      | None => decoded_from c (S i) ps'
      end
  end.

(** The output file of every (image, size) pair, image by image. *)
Definition outputs_of {Image : Type} (c : config Image)
    (ds : list (imageData Image)) : list gostring :=
  d ← ds; (λ z, outputPath (toPath c) (name d) z) <$> sizes c.

(** The files whose creation succeeds. *)
Definition creatable {Image : Type} (c : config Image) (fs : list gostring)
  : list gostring :=
  filter (λ f, create c f = true) fs.


(** The number of distinct files among the created ones. *)
Definition distinct_files (fs : list gostring) : nat :=
  length (remove_dups fs).

(** A token the parser rejects: [strconv.ParseInt] reports an error,
    or the integer is negative. *)
Definition bad_token (t : gostring) : Prop :=
  (Strconv.ParseInt10 t).2 ≠ None ∨ (Strconv.ParseInt10 t).1 < 0.

(** The comma-delimited tokens [parseSizes] iterates over. *)
Definition tokens (s : gostring) : list gostring :=
  Strings.FieldsFunc s isComma.

(** A small world for instances: a source directory with two JPEGs
    and two other entries. *)
Definition world0 : dirs :=
  [(str "src", [str "b.jpg"; str "a.jpg"; str "c.png"; str "sub"])].

(** A source directory whose name has glob metacharacters, next to a
    directory that the name, read as a pattern, matches. *)
Definition world1 : dirs :=
  [(str ".", [str "img1"; str "img[1]"]);
   (str "img[1]", [str "a.jpg"]);
   (str "img1", [str "x.jpg"])].

(** The same without the second directory. *)
Definition world2 : dirs :=
  [(str ".", [str "img[1]"]);
   (str "img[1]", [str "a.jpg"])].

(** A byte of a pattern that stands for itself. *)
Definition plain (c : ascii) : bool :=
  negb (is_byte c "[" || is_byte c "?" || is_byte c "\").

(** What the pattern [*.jpg] accepts, read off [starLoop]: a name that
    ends in [.jpg] after at least one byte, none of the bytes before
    the ending a slash. *)
Fixpoint starJpg (n : gostring) : bool :=
  match n with
  | [] => false
  | c :: n' =>
      if Filepath.isSlash c then false
      else bool_decide (n' = str ".jpg") || starJpg n'
  end.

Definition jpgMatch (n : gostring) : bool :=
  bool_decide (n = str ".jpg") || starJpg n.

(** *** Accounting of the pipeline, for the proofs *)

Fixpoint count_if {A : Type} (f : A → bool) (l : list A) : nat :=
  match l with
  | [] => 0%nat
  | x :: l' => ((if f x then 1 else 0) + count_if f l')%nat
  end.

(** Signals [readImages] has taken from its [finished]. *)
Definition lrecv {Image : Type} (c : config Image) (l : loader) : nat :=
  match l with
  | LSpawn _ => 0%nat
  | LWait i => i
  | LClosed => length (paths c)
  end.

(** Signals [resizeImages] has taken from its [finished]. *)
Definition drecv {Image : Type} (d : dispatcher Image) (n : nat) : nat :=
  match d with
  | DWait i => i
  | DDone => n
  | _ => 0%nat
  end.

(** The image [resizeImages] is spawning tasks for. *)
Definition current {Image : Type} (d : dispatcher Image) : list (imageData Image) :=
  match d with
  | DInner x _ => [x]
  | _ => []
  end.

(** Every signal sent is either buffered or taken; the loader closes
    the stream only after a signal per source; the dispatcher counts
    one task per spawn and signals [main] only after a signal per
    task; [main] returns only on that signal, with status 0. *)
Definition inv_count {Image : Type} (c : config Image) (s : state Image) : Prop :=
  match lpc s with
  | LSpawn k => length (readers s) = k ∧ (k ≤ length (paths c))%nat
  | LWait i => length (readers s) = length (paths c) ∧ (i ≤ length (paths c))%nat
  | LClosed => length (readers s) = length (paths c)
  end
  ∧ count_if reader_reported (readers s) = (rfin s + lrecv c (lpc s))%nat
  ∧ images_closed s = match lpc s with LClosed => true | _ => false end
  ∧ match dpc s with
    | DWait _ | DDone => images_closed s = true ∧ images s = []
    | _ => True
    end
  ∧ count s = length (workers s)
  ∧ count_if worker_reported (workers s) = (wfin s + drecv (dpc s) (count s))%nat
  ∧ match dpc s with DWait i => (i ≤ count s)%nat | _ => True end
  ∧ match dpc s with
    | DDone => (afin s + match mpc s with MWait => 0 | MExited _ => 1 end = 1)%nat
    | _ => afin s = 0%nat ∧ mpc s = MWait
    end
  ∧ match mpc s with MExited z => z = 0 | MWait => True end.

(** The steps a goroutine of each kind still has before it. *)
Definition perImage {Image : Type} (c : config Image) : nat :=
  (4 * length (sizes c) + 2)%nat.

Definition reader_weight {Image : Type} (c : config Image) (r : reader Image) : nat :=
  match r with
  | RStart => (3 + perImage c)%nat
  | RSend _ => (2 + perImage c)%nat
  | RDefer => 1%nat
  | RDone => 0%nat
  end.

Definition worker_weight {Image : Type} (w : worker Image) : nat :=
  match w_stage w with WStart => 2%nat | WDefer => 1%nat | WDone => 0%nat end.

Definition loader_weight {Image : Type} (c : config Image) (l : loader) : nat :=
  match l with
  | LSpawn k => ((length (paths c) - k) * (4 + perImage c) + length (paths c) + 2)%nat
  | LWait i => (length (paths c) - i + 1)%nat
  | LClosed => 0%nat
  end.

Definition dispatcher_weight {Image : Type} (d : dispatcher Image) (n : nat) : nat :=
  match d with
  | DRange => (n + 2)%nat
  | DInner _ rest => (4 * length rest + n + 3)%nat
  | DWait i => (n - i + 1)%nat
  | DDone => 0%nat
  end.

(** A bound on the number of steps left; every step lowers it. *)
Definition measure {Image : Type} (c : config Image) (s : state Image) : nat :=
  (sum_list_with (reader_weight c) (readers s)
   + loader_weight c (lpc s)
   + length (images s) * perImage c
   + dispatcher_weight (dpc s) (count s)
   + sum_list_with worker_weight (workers s)
   + match mpc s with MWait => 1 | MExited _ => 0 end)%nat.

(** *** The flow of images, for the proofs *)

(** The (image, size) pair of a resize task. *)
Definition tasks {Image : Type} (ws : list (worker Image))
  : list (imageData Image * Z) :=
  (λ w, (w_img w, w_size w)) <$> ws.

(** The tasks [resizeImages] spawns for the images [ds], in order. *)
Definition tasks_of {Image : Type} (c : config Image)
    (ds : list (imageData Image)) : list (imageData Image * Z) :=
  d ← ds; pair d <$> sizes c.

Definition task_path {Image : Type} (c : config Image)
    (t : imageData Image * Z) : gostring :=
  outputPath (toPath c) (name t.1) t.2.

(** [d] is the image of the source it points to, and the load task of
    that source is past its decoding. *)
Definition sent_ok {Image : Type} (c : config Image) (s : state Image)
    (d : imageData Image) : Prop :=
  image_of c (ptr d) d
  ∧ ∃ r, readers s !! ptr d = Some r ∧ reader_decoded r.

(** The images the loaders have sent are, without repetition, those of
    the sources that decoded and whose load task is past the send;
    they sit in the channel, are being dispatched, or have been
    dispatched ([recvd]); the resize tasks are those of the dispatched
    images, plus those already spawned for the current one. *)
Definition inv_flow {Image : Type} (c : config Image) (s : state Image) : Prop :=
  ∃ recvd,
    match dpc s with
    | DInner d rest =>
        ∃ pre, sizes c = pre ++ rest
               ∧ tasks (workers s) = tasks_of c recvd ++ (pair d <$> pre)
    | _ => tasks (workers s) = tasks_of c recvd
    end
    ∧ NoDup (ptr <$> (recvd ++ current (dpc s) ++ images s))
    ∧ Forall (sent_ok c s) (recvd ++ current (dpc s) ++ images s)
    ∧ (∀ j r, readers s !! j = Some r → reader_decoded r →
              (∃ p im, paths c !! j = Some p ∧ decode c p = Some im) →
              j ∈ ptr <$> (recvd ++ current (dpc s) ++ images s))
    ∧ (∀ j d, readers s !! j = Some (RSend d) → image_of c j d).

(** Whether the file of a task has been created. *)
Definition made {Image : Type} (c : config Image) (w : worker Image) : bool :=
  match w_stage w with
  | WStart => false
  | _ => create c (task_path c (w_img w, w_size w))
  end.

(** The created files are those of the tasks past [os.Create] for
    which it succeeded. *)
Definition inv_files {Image : Type} (c : config Image) (s : state Image) : Prop :=
  created s ≡ₚ task_path c <$> tasks (filter (λ w, made c w = true) (workers s)).

(** What [filepath.Join] puts before a plain last element: the cleaned
    first element and a slash, unless the former is empty or the
    root. *)
Definition joinPrefix (a : gostring) : gostring :=
  match a with
  | [] => []
  | c0 :: _ =>
      let rooted := Filepath.isSlash c0 in
      let st := fold_left (Filepath.cleanStep rooted) (Strings.cut Filepath.isSlash a) [] in
      (if rooted then str "/" else [])
      ++ match rev st with
         | [] => []
         | l => Filepath.joinSlash l ++ str "/"
         end
  end.

(** A file name as such: not empty, no slash, neither [.] nor [..]. *)
Definition plainName (f : gostring) : Prop :=
  f ≠ [] ∧ ("/"%char ∉ f) ∧ f ≠ str "." ∧ f ≠ str "..".

(** A run with a repeated size: one source, the size list of "50,50". *)
Definition config_dup : config unit :=
  Config (λ _, Some tt) (λ _, true) 1 [str "src/a.jpg"] [50; 50] (str "out").

(** The scenario of the spec: two sources, sizes 50 and 100. *)
Definition config_two : config unit :=
  Config (λ _, Some tt) (λ _, true) 2 [str "src/a.jpg"; str "src/b.jpg"]
         [50; 100] (str "out").

(** *** One run, computed

    A scheduler that always moves the first goroutine that can move,
    in the order [main], [resizeImages], the resize tasks,
    [readImages], the load tasks.  It picks one of the runs of the
    transition system, so that final states can be computed. *)

Fixpoint split_first {A : Type} (f : A → bool) (l : list A)
  : option (list A * A * list A) :=
  match l with
  | [] => None
  | x :: l' =>
      if f x then Some ([], x, l')
      else match split_first f l' with
           | Some (l1, y, l2) => Some (x :: l1, y, l2)
           | None => None
           end
  end.

Definition orElse {A : Type} (a b : option A) : option A :=
  match a with Some _ => a | None => b end.

Definition sched_main {Image : Type} (s : state Image) : option (state Image) :=
  let 'State rs l im cl rf d n ws wf af m cr := s in
  match m, af with
  | MWait, S af' => Some (State rs l im cl rf d n ws wf af' (MExited 0) cr)
  | _, _ => None
  end.

Definition sched_dispatcher {Image : Type} (c : config Image) (s : state Image)
  : option (state Image) :=
  let 'State rs l im cl rf d n ws wf af m cr := s in
  match m with
  | MExited _ => None
  | MWait =>
      match d with
      | DRange =>
          match im with
          | x :: im' => Some (State rs l im' cl rf (DInner x (sizes c)) n ws wf af MWait cr)
          | [] => if cl then Some (State rs l [] true rf (DWait 0) n ws wf af MWait cr)
                  else None
          end
      | DInner x (z :: rest) =>
          Some (State rs l im cl rf (DInner x rest) (S n)
                      (ws ++ [Worker x z WStart]) wf af MWait cr)
      | DInner x [] => Some (State rs l im cl rf DRange n ws wf af MWait cr)
      | DWait i =>
          if decide (i < n)%nat then
            match wf with
            | S wf' => Some (State rs l im cl rf (DWait (S i)) n ws wf' af MWait cr)
            | O => None
            end
          else if decide (af < cap c)%nat
               then Some (State rs l im cl rf DDone n ws wf (S af) MWait cr)
               else None
      | DDone => None
      end
  end.

Definition sched_worker {Image : Type} (c : config Image) (s : state Image)
  : option (state Image) :=
  let 'State rs l im cl rf d n ws wf af m cr := s in
  match m with
  | MExited _ => None
  | MWait =>
      match split_first (λ w, negb (worker_reported w)) ws with
      | Some (ws1, Worker x z WStart, ws2) =>
          Some (State rs l im cl rf d n (ws1 ++ Worker x z WDefer :: ws2) wf af MWait
                      (resizeImage_files c x z cr))
      | Some (ws1, Worker x z WDefer, ws2) =>
          if decide (wf < cap c)%nat
          then Some (State rs l im cl rf d n (ws1 ++ Worker x z WDone :: ws2)
                           (S wf) af MWait cr)
          else None
      | _ => None
      end
  end.

Definition sched_loader {Image : Type} (c : config Image) (s : state Image)
  : option (state Image) :=
  let 'State rs l im cl rf d n ws wf af m cr := s in
  match m with
  | MExited _ => None
  | MWait =>
      match l with
      | LSpawn k =>
          match paths c !! k with
          | Some _ => Some (State (rs ++ [RStart]) (LSpawn (S k)) im cl rf d n ws wf af MWait cr)
          | None => Some (State rs (LWait 0) im cl rf d n ws wf af MWait cr)
          end
      | LWait i =>
          if decide (i < length (paths c))%nat then
            match rf with
            | S rf' => Some (State rs (LWait (S i)) im cl rf' d n ws wf af MWait cr)
            | O => None
            end
          else Some (State rs LClosed im true rf d n ws wf af MWait cr)
      | LClosed => None
      end
  end.

Definition sched_reader {Image : Type} (c : config Image) (s : state Image)
  : option (state Image) :=
  let 'State rs l im cl rf d n ws wf af m cr := s in
  match m with
  | MExited _ => None
  | MWait =>
      match split_first (λ r, negb (reader_reported r)) rs with
      | Some (rs1, RStart, rs2) =>
          match paths c !! length rs1 with
          | Some p => Some (State (rs1 ++ readImage_start c (length rs1) p :: rs2)
                                  l im cl rf d n ws wf af MWait cr)
          | None => None
          end
      | Some (rs1, RSend x, rs2) =>
          if decide (length im < cap c)%nat then
            if cl then None
            else Some (State (rs1 ++ RDefer :: rs2) l (im ++ [x]) false rf d n ws wf af
                             MWait cr)
          else None
      | Some (rs1, RDefer, rs2) =>
          if decide (rf < cap c)%nat
          then Some (State (rs1 ++ RDone :: rs2) l im cl (S rf) d n ws wf af MWait cr)
          else None
      | _ => None
      end
  end.

Definition sched {Image : Type} (c : config Image) (s : state Image)
  : option (state Image) :=
  orElse (sched_main s)
    (orElse (sched_dispatcher c s)
       (orElse (sched_worker c s)
          (orElse (sched_loader c s) (sched_reader c s)))).

(** The state after at most [fuel] scheduled steps. *)
Fixpoint run {Image : Type} (c : config Image) (fuel : nat) (s : state Image)
  : state Image :=
  match fuel with
  | O => s
  | S fuel' =>
      match sched c s with
      | Some s' => run c fuel' s'
      | None => s
      end
  end.

(** A run in which one source does not decode and one output cannot be
    created. *)
Definition config_mixed : config unit :=
  Config (λ p, if bool_decide (p = str "src/bad.jpg") then None else Some tt)
         (λ f, negb (bool_decide (f = str "out/a_100.jpg")))
         1 [str "src/a.jpg"; str "src/bad.jpg"; str "src/b.jpg"]
         [50; 100] (str "out").

(** A byte [strconv.Itoa] can produce: a digit or the minus sign. *)
Definition itoa_byte (c : ascii) : Prop :=
  c = "-"%char ∨ Strconv.isDigit c = true.

(** The number a string of decimal digits denotes, read from the left
    with the accumulator [n], as [ParseUint] reads it. *)
Fixpoint uval (d : Decimal.uint) (n : Z) : Z :=
  match d with
  | Decimal.Nil => n
  | Decimal.D0 u => uval u (10 * n)
  | Decimal.D1 u => uval u (10 * n + 1)
  | Decimal.D2 u => uval u (10 * n + 2)
  | Decimal.D3 u => uval u (10 * n + 3)
  | Decimal.D4 u => uval u (10 * n + 4)
  | Decimal.D5 u => uval u (10 * n + 5)
  | Decimal.D6 u => uval u (10 * n + 6)
  | Decimal.D7 u => uval u (10 * n + 7)
  | Decimal.D8 u => uval u (10 * n + 8)
  | Decimal.D9 u => uval u (10 * n + 9)
  end.

(** A token [strconv.ParseInt] can accept: an optional sign, then at
    least one decimal digit. *)
Definition signed_digits (t : gostring) : Prop :=
  ∃ sign ds, t = sign ++ ds
             ∧ (sign = [] ∨ sign = str "+" ∨ sign = str "-")
             ∧ ds ≠ [] ∧ Forall (λ c, Strconv.isDigit c = true) ds.

(** * Properties *)

(** ** The library models on concrete inputs *)

Example parseSizes_ex1 : parseSizes (str "50,100") = inl [50; 100].
Proof. reflexivity. Qed.
Example parseSizes_ex2 : parseSizes (str "abc") = inr (ErrNotValidSize (str "abc")).
Proof. reflexivity. Qed.
Example parseSizes_ex3 : parseSizes (str "-5") = inr (ErrLessThanZero (-5)).
Proof. reflexivity. Qed.
Example parseSizes_ex4 :
  parseSizes (str "9223372036854775808")
  = inr (ErrSizeRange (str "9223372036854775808")).
Proof. vm_compute. reflexivity. Qed.
Example parseSizes_ex5 : parseSizes (str "9223372036854775807") = inl [9223372036854775807].
Proof. vm_compute. reflexivity. Qed.
Example itoa_ex : Strconv.Itoa 50 = str "50" ∧ Strconv.Itoa 0 = str "0" ∧ Strconv.Itoa (-7) = str "-7".
Proof. vm_compute. auto. Qed.
Example base_ex : Filepath.Base (str "src/a.jpg") = str "a.jpg".
Proof. reflexivity. Qed.
Example ext_ex : Filepath.Ext (str "src/a.b/c.tar.jpg") = str ".jpg".
Proof. reflexivity. Qed.
Example ext_ex2 : Filepath.Ext (str "src/a.b/c") = [].
Proof. reflexivity. Qed.
Example clean_ex : Filepath.Clean (str "a//b/../c/./d/") = str "a/c/d".
Proof. reflexivity. Qed.
Example join_ex : Filepath.Join (str ".") (str "*.jpg") = str "*.jpg".
Proof. reflexivity. Qed.
Example join_ex2 : Filepath.Join (str "/out/") (str "a_50.jpg") = str "/out/a_50.jpg".
Proof. reflexivity. Qed.
Example split_ex : Filepath.Split (str "img[1]/*.jpg") = (str "img[1]/", str "*.jpg").
Proof. reflexivity. Qed.
Example match_ex1 : Filepath.Match (str "*.jpg") (str "a.jpg") = Some true.
Proof. reflexivity. Qed.
Example match_ex2 : Filepath.Match (str "*.jpg") (str "a.jpeg") = Some false.
Proof. reflexivity. Qed.
Example match_ex3 : Filepath.Match (str "*.jpg") (str "a.JPG") = Some false.
Proof. reflexivity. Qed.
Example match_ex4 : Filepath.Match (str "img[1]") (str "img1") = Some true.
Proof. reflexivity. Qed.
Example match_ex5 : Filepath.Match (str "img[1]") (str "img[1]") = Some false.
Proof. reflexivity. Qed.
Example match_ex6 : Filepath.Match (str "a[") (str "a") = None.
Proof. reflexivity. Qed.
Example match_ex7 : Filepath.Match (str "a?c*") (str "abcdef") = Some true.
Proof. reflexivity. Qed.
Example match_ex8 : Filepath.Match (str "[a-c]x\*") (str "bx*") = Some true.
Proof. reflexivity. Qed.
Example match_ex9 : Filepath.Match (str "*.jpg") (str ".jpg") = Some true.
Proof. reflexivity. Qed.
Example match_ex10 : Filepath.Match (str "*.jpg") (str "a.jpg.jpg") = Some true.
Proof. reflexivity. Qed.
Example main_ex1 :
  main [(str "src", [str "b.jpg"; str "a.jpg"; str "c.png"; str "sub"])]
       (str "src") (str "out") (str "50,100")
  = ([(str "src", [str "b.jpg"; str "a.jpg"; str "c.png"; str "sub"]); (str "out", [])],
     [CallStat (str "src"); CallStat (str "out"); CallMkdirAll (str "out");
      CallGlob (str "src/*.jpg")],
     StartPipeline [str "src/a.jpg"; str "src/b.jpg"] [50; 100] (str "out")).
Proof. vm_compute. reflexivity. Qed.

(** ** Size parsing *)

Lemma parseToken_bad s t : bad_token t → ∃ e, parseToken s t = inr e.
Proof.
  unfold bad_token, parseToken.
  destruct (Strconv.ParseInt10 t) as [i [[]|]]; simpl; intros [H|H]; eauto.
  - congruence.
  - apply Z.ltb_lt in H. rewrite H. eauto.
Qed.

Lemma parseToken_good s t i :
  parseToken s t = inl i → Strconv.ParseInt10 t = (i, None) ∧ 0 ≤ i.
Proof.
  unfold parseToken.
  destruct (Strconv.ParseInt10 t) as [j [[]|]]; simpl; try discriminate.
  destruct (j <? 0) eqn:E; intros [= <-].
  apply Z.ltb_ge in E. auto.
Qed.

Lemma parseToken_not_bad s t : ¬ bad_token t → ∃ i, parseToken s t = inl i.
Proof.
  unfold bad_token, parseToken.
  destruct (Strconv.ParseInt10 t) as [j [e|]]; simpl; intros H.
  - destruct H. left. discriminate.
  - destruct (j <? 0) eqn:E; eauto.
    apply Z.ltb_lt in E. destruct H. auto.
Qed.

Lemma parseSizesLoop_bad s ts acc t :
  t ∈ ts → bad_token t → ∃ e, parseSizesLoop s ts acc = inr e.
Proof.
  intros Hin Hbad. revert acc.
  induction Hin as [t ts|t u ts Hin IH]; intros acc; simpl.
  - destruct (parseToken_bad s t Hbad) as [e ->]. eauto.
  - destruct (parseToken s u); eauto.
Qed.

(** A successful parse is the list of the values of the tokens, in
    order, after the values already collected. *)
Lemma parseSizesLoop_ok s ts acc l :
  parseSizesLoop s ts acc = inl l →
  l = acc ++ ((λ t, (Strconv.ParseInt10 t).1) <$> ts)
  ∧ Forall (λ t, ¬ bad_token t ∧ 0 ≤ (Strconv.ParseInt10 t).1) ts.
Proof.
  revert acc. induction ts as [|t ts IH]; intros acc; simpl.
  - intros [= <-]. by rewrite app_nil_r.
  - destruct (parseToken s t) as [i|e] eqn:E; [|discriminate].
    intros H. apply IH in H as [-> HF].
    apply parseToken_good in E as [E Hi].
    rewrite E. simpl. rewrite <- app_assoc. split; [done|].
    constructor; [|done]. unfold bad_token. rewrite E. simpl. split; [|done].
    intros [?|?]; [done|lia].
Qed.

Lemma parseSizesLoop_total s ts acc :
  Forall (λ t, ¬ bad_token t) ts → ∃ l, parseSizesLoop s ts acc = inl l.
Proof.
  intros HF. revert acc. induction HF as [|t ts Ht HF IH]; intros acc; simpl.
  - eauto.
  - destruct (parseToken_not_bad s t Ht) as [i ->]. apply IH.
Qed.

Lemma cut_commas s :
  Forall (λ c, c = ","%char) s → Forall (λ t, t = []) (Strings.cut isComma s).
Proof.
  induction 1 as [|c s -> _ IH]; simpl.
  - by constructor.
  - by constructor.
Qed.

Lemma tokens_commas s : Forall (λ c, c = ","%char) s → tokens s = [].
Proof.
  intros H. apply cut_commas in H. unfold tokens, Strings.FieldsFunc.
  induction H as [|t ts -> _ IH]; simpl; auto.
Qed.

(** ** The sequential part of [main] *)

Section PreludeFacts.
Context {World : Type} `{!OS World}.
Implicit Types (w : World) (fromPath toPath sizesString : gostring).

Lemma main_parse_error w fromPath toPath sizesString e :
  parseSizes sizesString = inr e →
  ∃ m, main w fromPath toPath sizesString
       = ((os_MkdirAll w toPath).1,
          [CallStat fromPath; CallStat toPath; CallMkdirAll toPath],
          Exit 1 m).
Proof.
  intros H. unfold main, validate. rewrite H.
  destruct (os_MkdirAll w toPath) as [w1 e3]. simpl.
  repeat case_match; eauto.
Qed.

Lemma main_no_sizes w fromPath toPath sizesString :
  parseSizes sizesString = inl [] →
  ∃ m, main w fromPath toPath sizesString
       = ((os_MkdirAll w toPath).1,
          [CallStat fromPath; CallStat toPath; CallMkdirAll toPath],
          Exit 1 m).
Proof.
  intros H. unfold main, validate. rewrite H.
  destruct (os_MkdirAll w toPath) as [w1 e3]. simpl.
  repeat case_match; eauto.
Qed.

Lemma main_no_sizes_message w fromPath toPath sizesString :
  (validate w fromPath toPath).2 = None →
  parseSizes sizesString = inl [] →
  (main w fromPath toPath sizesString).2 = Exit 1 FatalNoSizes.
Proof.
  intros Hv H. unfold main. destruct (validate w fromPath toPath) as [[w1 calls] verr].
  simpl in Hv. subst verr. by rewrite H.
Qed.

End PreludeFacts.

(** C4: with a malformed size list ("abc", "-5", any string
    [parseSizes] rejects) the process exits with status 1, and the only
    calls to the operating system it has made are those of directory
    validation (two [os.Stat] and the [os.MkdirAll] of the destination):
    the file system is as validation left it, no source list has been
    resolved and no goroutine has been started. *)
Theorem malformed_sizes_abort_before_io {World : Type} `{!OS World}
    (w : World) (fromPath toPath sizesString : gostring) (e : error) :
  parseSizes sizesString = inr e →
  ∃ m, main w fromPath toPath sizesString
       = ((validate w fromPath toPath).1.1, (validate w fromPath toPath).1.2,
          Exit 1 m)
       ∧ 1 ≠ 0
       ∧ (validate w fromPath toPath).1.2
         = [CallStat fromPath; CallStat toPath; CallMkdirAll toPath]
       ∧ (∀ pattern, CallGlob pattern ∉ (validate w fromPath toPath).1.2).
Proof.
  intros H. destruct (main_parse_error w fromPath toPath _ _ H) as [m Hm].
  exists m. rewrite Hm. unfold validate.
  destruct (os_MkdirAll w toPath) as [w1 e3]. simpl.
  split_and!; [done|lia|done|].
  intros pattern Hin. repeat (apply elem_of_cons in Hin as [?|Hin]; [done|]).
  by apply elem_of_nil in Hin.
Qed.

Lemma malformed_sizes_abort_before_io_witness :
  parseSizes (str "abc") = inr (ErrNotValidSize (str "abc"))
  ∧ ∃ m, main world0 (str "src") (str "out") (str "abc")
       = ((validate world0 (str "src") (str "out")).1.1,
          (validate world0 (str "src") (str "out")).1.2, Exit 1 m)
       ∧ 1 ≠ 0
       ∧ (validate world0 (str "src") (str "out")).1.2
         = [CallStat (str "src"); CallStat (str "out"); CallMkdirAll (str "out")]
       ∧ (∀ pattern, CallGlob pattern ∉ (validate world0 (str "src") (str "out")).1.2).
Proof.
  split; [reflexivity|].
  apply (malformed_sizes_abort_before_io world0 (str "src") (str "out") (str "abc")
           (ErrNotValidSize (str "abc"))).
  reflexivity.
Defined.

Example malformed_sizes_negative :
  main world0 (str "src") (str "out") (str "-5")
  = (world0 ++ [(str "out", [])],
     [CallStat (str "src"); CallStat (str "out"); CallMkdirAll (str "out")],
     Exit 1 (FatalParseSizes (ErrLessThanZero (-5)))).
Proof. vm_compute. reflexivity. Qed.

(** C6: [parseSizes] returns an error as soon as one of the
    comma-delimited tokens fails to parse as an integer or parses to a
    negative integer, and [main] exits with status 1 both when
    [parseSizes] returns an error and when it returns an empty list. *)
Theorem parseSizes_rejects_and_main_aborts {World : Type} `{!OS World}
    (w : World) (fromPath toPath s : gostring) :
  (∀ t, t ∈ tokens s → bad_token t → ∃ e, parseSizes s = inr e)
  ∧ ((∃ e, parseSizes s = inr e) ∨ parseSizes s = inl [] →
     ∃ m, (main w fromPath toPath s).2 = Exit 1 m ∧ 1 ≠ 0).
Proof.
  split.
  - intros t Hin Hbad. by apply (parseSizesLoop_bad s _ [] t).
  - intros [[e H]|H].
    + destruct (main_parse_error w fromPath toPath _ _ H) as [m ->].
      exists m. split; [done|lia].
    + destruct (main_no_sizes w fromPath toPath _ H) as [m ->].
      exists m. split; [done|lia].
Qed.

Lemma parseSizes_rejects_and_main_aborts_witness :
  (∃ e, parseSizes (str "5,abc") = inr e)
  ∧ (∃ m, (main world0 (str "src") (str "out") (str "5,abc")).2 = Exit 1 m ∧ 1 ≠ 0)
  ∧ (∃ m, (main world0 (str "src") (str "out") (str ",")).2 = Exit 1 m ∧ 1 ≠ 0).
Proof.
  pose proof (parseSizes_rejects_and_main_aborts
                world0 (str "src") (str "out") (str "5,abc")) as [H1 H2].
  pose proof (parseSizes_rejects_and_main_aborts
                world0 (str "src") (str "out") (str ",")) as [_ H3].
  split_and!.
  - apply (H1 (str "abc")).
    + vm_compute. apply list_elem_of_further, list_elem_of_here.
    + left. vm_compute. discriminate.
  - apply H2. left. eexists. reflexivity.
  - apply H3. right. reflexivity.
Defined.

(** C7, as the spec has it, fails: the parser keeps repeated values. *)
Lemma parseSizes_keeps_duplicates :
  ¬ (∀ s l, parseSizes s = inl l → NoDup l).
Proof.
  intros H. specialize (H (str "50,50") [50; 50] eq_refl).
  apply NoDup_cons in H as [H _]. apply H. apply list_elem_of_here.
Qed.

(** C7, amended: a successful parse is the list of the values of the
    tokens, one entry per token and in token order, each of them
    non-negative; nothing is removed, so a repeated token yields a
    repeated target. *)
Theorem parseSizes_list_of_token_values (s : gostring) (l : list Z) :
  parseSizes s = inl l →
  l = (λ t, (Strconv.ParseInt10 t).1) <$> tokens s
  ∧ length l = length (tokens s)
  ∧ Forall (λ i, 0 ≤ i) l.
Proof.
  intros H. apply parseSizesLoop_ok in H as [-> HF]. simpl.
  split_and!; [done|by rewrite length_fmap|].
  apply Forall_fmap. eapply Forall_impl; [exact HF|]. by intros t [_ ?].
Qed.

Lemma parseSizes_list_of_token_values_witness :
  parseSizes (str "50,50") = inl [50; 50]
  ∧ [50; 50] = (λ t, (Strconv.ParseInt10 t).1) <$> tokens (str "50,50")
  ∧ length [50; 50] = length (tokens (str "50,50"))
  ∧ Forall (λ i, 0 ≤ i) [50; 50].
Proof.
  split; [reflexivity|].
  apply (parseSizes_list_of_token_values (str "50,50") [50; 50]). reflexivity.
Defined.

(** C8: the token "0" is accepted.  Whenever it is among the tokens of
    the size list, the loop body appends 0 for it, every successful
    parse contains 0, and the parse succeeds when no other token is
    rejected. *)
Theorem parseSizes_accepts_zero (s : gostring) :
  str "0" ∈ tokens s →
  parseToken s (str "0") = inl 0
  ∧ (∀ l, parseSizes s = inl l → 0 ∈ l)
  ∧ (Forall (λ t, ¬ bad_token t) (tokens s) → ∃ l, parseSizes s = inl l ∧ 0 ∈ l).
Proof.
  intros Hin.
  assert (Hl : ∀ l, parseSizes s = inl l → 0 ∈ l).
  { intros l H. apply parseSizesLoop_ok in H as [-> _].
    apply (list_elem_of_fmap_2 (λ t, (Strconv.ParseInt10 t).1)) in Hin.
    exact Hin. }
  split_and!; [reflexivity|done|].
  intros HF. destruct (parseSizesLoop_total s _ [] HF) as [l H].
  exists l. split; [done|]. by apply Hl.
Qed.

Lemma parseSizes_accepts_zero_witness :
  parseToken (str "7,0,3") (str "0") = inl 0
  ∧ (∀ l, parseSizes (str "7,0,3") = inl l → 0 ∈ l)
  ∧ (Forall (λ t, ¬ bad_token t) (tokens (str "7,0,3")) →
     ∃ l, parseSizes (str "7,0,3") = inl l ∧ 0 ∈ l).
Proof.
  apply (parseSizes_accepts_zero (str "7,0,3")).
  vm_compute. apply list_elem_of_further, list_elem_of_here.
Defined.

Example parseSizes_zero_ex : parseSizes (str "7,0,3") = inl [7; 0; 3].
Proof. reflexivity. Qed.

(** C9: empty tokens are skipped without an error: "5,,10," parses to
    [5; 10]; a string of commas only, the empty string included, parses
    to the empty list, and [main], once directory validation has
    passed, rejects that list with "no sizes specified", not with a
    parse error. *)
Theorem parseSizes_skips_empty_tokens {World : Type} `{!OS World}
    (w : World) (fromPath toPath s : gostring) :
  parseSizes (str "5,,10,") = inl [5; 10]
  ∧ (Forall (λ c, c = ","%char) s →
     parseSizes s = inl []
     ∧ ((validate w fromPath toPath).2 = None →
        (main w fromPath toPath s).2 = Exit 1 FatalNoSizes)).
Proof.
  split; [reflexivity|]. intros Hs.
  assert (H : parseSizes s = inl []).
  { unfold parseSizes. fold (tokens s). by rewrite tokens_commas. }
  split; [done|]. intros Hv. by apply main_no_sizes_message.
Qed.

Lemma parseSizes_skips_empty_tokens_witness :
  parseSizes (str "5,,10,") = inl [5; 10]
  ∧ parseSizes (str ",,") = inl []
  ∧ parseSizes [] = inl []
  ∧ (main world0 (str "src") (str "out") (str ",,")).2 = Exit 1 FatalNoSizes
  ∧ (main world0 (str "src") (str "out") []).2 = Exit 1 FatalNoSizes.
Proof.
  pose proof (parseSizes_skips_empty_tokens world0 (str "src") (str "out") (str ",,"))
    as [H0 H1].
  pose proof (parseSizes_skips_empty_tokens world0 (str "src") (str "out") [])
    as [_ H2].
  destruct H1 as [H1 H1']; [repeat constructor|].
  destruct H2 as [H2 H2']; [constructor|].
  split_and!; [done|done|done|by apply H1'|by apply H2'].
Defined.

(** ** Source enumeration *)

Lemma is_byte_spec c d : is_byte c d = bool_decide (c = d).
Proof.
  unfold is_byte. destruct (Ascii.eqb_spec c d); symmetry;
    [by apply bool_decide_eq_true_2|by apply bool_decide_eq_false_2].
Qed.

Lemma matchChunkLoop_plain fuel chunk s failed :
  (length chunk ≤ fuel)%nat →
  forallb plain chunk = true →
  Filepath.matchChunkLoop fuel chunk s failed
  = Some (if failed then None
          else if Strings.HasPrefix s chunk then Some (drop (length chunk) s)
          else None).
Proof.
  revert chunk s failed. induction fuel as [|fuel IH]; intros chunk s failed Hlen Hp.
  - destruct chunk; [|simpl in Hlen; lia]. simpl. by destruct failed, s.
  - destruct chunk as [|c chunk]; [simpl; by destruct failed, s|].
    simpl in Hlen, Hp. apply andb_true_iff in Hp as [Hc Hp].
    unfold plain in Hc. apply negb_true_iff in Hc.
    apply orb_false_iff in Hc as [Hc H3]. apply orb_false_iff in Hc as [H1 H2].
    simpl. rewrite H1, H2, H3.
    destruct failed; simpl.
    + rewrite IH by (done || lia). done.
    + destruct s as [|b s]; simpl.
      * rewrite IH by (done || lia). done.
      * rewrite IH by (done || lia). by destruct (is_byte c b).
Qed.

Lemma matchChunk_jpg m :
  Filepath.matchChunk (str ".jpg") m
  = Some (if Strings.HasPrefix m (str ".jpg") then Some (drop 4 m) else None).
Proof.
  unfold Filepath.matchChunk. by rewrite matchChunkLoop_plain.
Qed.

Lemma HasPrefix_spec s p : Strings.HasPrefix s p = true ↔ ∃ t, s = p ++ t.
Proof.
  revert s. induction p as [|a p IH]; intros s; simpl.
  - destruct s; (split; [intros _; by eexists|by intros _]).
  - destruct s as [|b s].
    + split; [done|]. intros [t ?]. discriminate.
    + simpl. rewrite andb_true_iff, is_byte_spec, bool_decide_eq_true, IH.
      split.
      * intros [-> [t ->]]. eauto.
      * intros [t [= -> ->]]. eauto.
Qed.

Lemma HasPrefix_drop s p : Strings.HasPrefix s p = true → s = p ++ drop (length p) s.
Proof.
  intros [t ->]%HasPrefix_spec. by rewrite drop_app_length.
Qed.

Lemma starLoop_jpg n :
  Filepath.starLoop (str ".jpg") true n
  = Some (if starJpg n then Some [] else None).
Proof.
  induction n as [|c n IH]; simpl; [done|].
  destruct (Filepath.isSlash c); [done|].
  rewrite matchChunk_jpg.
  destruct (Strings.HasPrefix n (str ".jpg")) eqn:E.
  - apply HasPrefix_drop in E. change (length (str ".jpg")) with 4%nat in E.
    destruct (drop 4 n) as [|x t] eqn:Ed; simpl.
    + rewrite app_nil_r in E. subst n. done.
    + rewrite IH. rewrite bool_decide_false; [done|].
      intros ->. discriminate.
  - rewrite IH. rewrite bool_decide_false; [done|].
    intros ->. discriminate.
Qed.

Lemma Match_jpg n : Filepath.Match (str "*.jpg") n = Some (jpgMatch n).
Proof.
  unfold Filepath.Match.
  change (Filepath.matchLoop (length (str "*.jpg")) (str "*.jpg") n)
    with (match Filepath.matchChunk (str ".jpg") n with
          | None => None
          | Some (Some t) =>
              if negb (Strings.nonempty t) || false
              then Filepath.matchLoop 4 [] t
              else match Filepath.starLoop (str ".jpg") true n with
                   | None => None
                   | Some (Some t) => Filepath.matchLoop 4 [] t
                   | Some None => Some false
                   end
          | Some None =>
              match Filepath.starLoop (str ".jpg") true n with
              | None => None
              | Some (Some t) => Filepath.matchLoop 4 [] t
              | Some None => Some false
              end
          end).
  rewrite matchChunk_jpg, starLoop_jpg. unfold jpgMatch.
  destruct (Strings.HasPrefix n (str ".jpg")) eqn:E.
  - apply HasPrefix_drop in E. change (length (str ".jpg")) with 4%nat in E.
    destruct (drop 4 n) as [|x t] eqn:Ed; simpl.
    + rewrite app_nil_r in E. subst n. done.
    + rewrite bool_decide_false by (intros ->; discriminate).
      by destruct (starJpg n).
  - rewrite bool_decide_false by (intros ->; discriminate).
    by destruct (starJpg n).
Qed.

Lemma starJpg_spec n :
  starJpg n = true ↔ ∃ pre, n = pre ++ str ".jpg" ∧ pre ≠ [] ∧ "/"%char ∉ pre.
Proof.
  induction n as [|c n IH]; simpl.
  - split; [done|]. intros (pre & H & _). by destruct pre.
  - unfold Filepath.isSlash. rewrite is_byte_spec. case_bool_decide as Hc.
    + subst c. split; [done|]. intros ([|x pre] & H & Hne & Hs); [done|].
      injection H as <- _. destruct Hs. apply list_elem_of_here.
    + rewrite orb_true_iff, bool_decide_eq_true, IH. split.
      * intros [->|(pre & -> & Hne & Hs)].
        -- exists [c]. split_and!; [done|done|].
           intros E%list_elem_of_singleton. by destruct Hc.
        -- exists (c :: pre). split_and!; [done|done|].
           intros [E|?]%elem_of_cons; [by destruct Hc|done].
      * intros ([|x pre] & H & Hne & Hs); [done|].
        injection H as -> ->. destruct pre as [|y pre]; [by left|right].
        exists (y :: pre). split_and!; [done|done|].
        intros ?. apply Hs. by apply list_elem_of_further.
Qed.

(** The names [*.jpg] selects: exactly those ending in the literal,
    lower-case [.jpg], with no slash before it. *)
Lemma jpgMatch_spec n :
  jpgMatch n = true ↔ ∃ pre, n = pre ++ str ".jpg" ∧ "/"%char ∉ pre.
Proof.
  unfold jpgMatch. rewrite orb_true_iff, bool_decide_eq_true, starJpg_spec. split.
  - intros [->|(pre & -> & _ & Hs)]; [exists []|exists pre]; split; try done.
    apply not_elem_of_nil.
  - intros ([|x pre] & -> & Hs); [by left|right].
    exists (x :: pre). done.
Qed.

Section GlobFacts.
Context {World : Type} `{!OS World}.

Lemma globNames_jpg dir names m :
  globNames dir (str "*.jpg") names m
  = (m ++ (Filepath.Join dir <$> List.filter jpgMatch names), None).
Proof.
  revert m. induction names as [|n names IH]; intros m; simpl.
  - by rewrite app_nil_r.
  - rewrite Match_jpg. destruct (jpgMatch n); simpl; rewrite IH; [|done].
    by rewrite <- app_assoc.
Qed.

Lemma insertSorted_perm x l : insertSorted x l ≡ₚ x :: l.
Proof.
  induction l as [|y l IH]; simpl; [done|].
  destruct (strLess x y); [done|]. rewrite IH. apply Permutation_swap.
Qed.

Lemma sortStrings_perm l : sortStrings l ≡ₚ l.
Proof.
  induction l as [|x l IH]; simpl; [done|].
  by rewrite insertSorted_perm, IH.
Qed.

(** One directory, globbed for [*.jpg]: the entries whose names the
    pattern accepts, each joined to the directory, and never an
    error. *)
Lemma glob_jpg (w : World) dir names :
  os_Stat w dir = StatOk true →
  os_Readdirnames w dir = Some names →
  (glob w dir (str "*.jpg") []).2 = None
  ∧ ∀ f, f ∈ (glob w dir (str "*.jpg") []).1
         ↔ ∃ n, n ∈ names ∧ jpgMatch n = true ∧ f = Filepath.Join dir n.
Proof.
  intros Hs Hr. unfold glob. rewrite Hs, Hr, globNames_jpg. simpl.
  split; [done|]. intros f. rewrite list_elem_of_fmap. split.
  - intros (n & -> & Hn). apply list_elem_of_In, filter_In in Hn as [Hn Hm].
    exists n. split_and!; [|done|done].
    rewrite <- (sortStrings_perm names). by apply list_elem_of_In.
  - intros (n & Hn & Hm & ->). exists n. split; [done|].
    apply list_elem_of_In, filter_In. split; [|done].
    apply list_elem_of_In. by rewrite sortStrings_perm.
Qed.

End GlobFacts.

Example glob_excludes_other_extensions :
  (glob [(str "src", [str "b.jpeg"; str "a.jpg"; str "c.JPG"; str "d.jpg.bak";
                      str "sub"; str ".jpg"])]
        (str "src") (str "*.jpg") []).1
  = [str "src/.jpg"; str "src/a.jpg"].
Proof. vm_compute. reflexivity. Qed.

(** ** Output names *)

Lemma replaceScan_skip old new s k :
  (length s ≤ k)%nat → Strings.replaceScan old new s k = [].
Proof.
  revert k. induction s as [|c s IH]; intros k Hk; simpl; [done|].
  simpl in Hk. destruct k as [|k]; [lia|]. apply IH. lia.
Qed.

(** Where the extension occurs in the file name only as its ending,
    removing every occurrence removes just that ending. *)
Lemma replaceScan_once b e :
  e ≠ [] →
  (∀ k, (k < length b)%nat → Strings.HasPrefix (drop k (b ++ e)) e = false) →
  Strings.replaceScan e [] (b ++ e) 0 = b.
Proof.
  intros He. induction b as [|c b IH]; intros H.
  - simpl. destruct e as [|x e]; [done|].
    assert (Hp : Strings.HasPrefix (x :: e) (x :: e) = true).
    { apply HasPrefix_spec. exists []. by rewrite app_nil_r. }
    cbn [Strings.replaceScan]. rewrite Hp. simpl.
    apply replaceScan_skip. lia.
  - pose proof (H 0%nat ltac:(simpl; lia)) as H0.
    change (drop 0 ((c :: b) ++ e)) with (c :: (b ++ e)) in H0.
    change ((c :: b) ++ e) with (c :: (b ++ e)).
    cbn [Strings.replaceScan]. rewrite H0. f_equal. apply IH.
    intros k Hk. apply (H (S k)). simpl. lia.
Qed.

Lemma imageName_once p b :
  Filepath.Base p = b ++ Filepath.Ext p →
  (∀ k, (k < length b)%nat →
        Strings.HasPrefix (drop k (Filepath.Base p)) (Filepath.Ext p) = false) →
  imageName p = b.
Proof.
  intros Hb H. unfold imageName, Strings.ReplaceAllEmpty.
  case_bool_decide as He.
  - rewrite Hb, He. by rewrite app_nil_r.
  - rewrite Hb. apply replaceScan_once; [done|]. by rewrite <- Hb.
Qed.

(** C5: the name kept with a decoded image is not the file name with
    its one trailing extension stripped: [strings.Replace] with a count
    of -1 removes every occurrence of the extension.  For the source
    [src/a.jpg.jpg] the name is [a], not [a.jpg], so that its outputs
    have the paths of those of [src/a.jpg].  The output path itself is
    the name followed by [_<size>.jpg], joined to the destination. *)
Theorem imageName_strips_every_extension :
  imageName (str "src/a.jpg.jpg") = str "a"
  ∧ Strings.TrimSuffix (Filepath.Base (str "src/a.jpg.jpg"))
                       (Filepath.Ext (str "src/a.jpg.jpg")) = str "a.jpg"
  ∧ imageName (str "src/a.jpg") = str "a"
  ∧ outputPath (str "out") (imageName (str "src/a.jpg.jpg")) 50 = str "out/a_50.jpg"
  ∧ outputPath (str "out") (imageName (str "src/a.jpg")) 50 = str "out/a_50.jpg".
Proof. vm_compute. repeat split. Qed.

Example imageName_ex :
  imageName (str "src/holiday.jpg") = str "holiday"
  ∧ imageName (str "src/x.jpgs.jpg") = str "xs"
  ∧ imageName (str "README") = str "README".
Proof. vm_compute. repeat split. Qed.

(** ** The pipeline: accounting, progress and termination *)

Lemma count_if_app {A} (f : A → bool) l1 l2 :
  count_if f (l1 ++ l2) = (count_if f l1 + count_if f l2)%nat.
Proof. induction l1 as [|x l1 IH]; simpl; [done|]. rewrite IH. lia. Qed.

Lemma count_if_le {A} (f : A → bool) l : (count_if f l ≤ length l)%nat.
Proof. induction l as [|x l IH]; simpl; [done|]. destruct (f x); lia. Qed.

Lemma count_if_all {A} (f : A → bool) l :
  (length l ≤ count_if f l)%nat → Forall (λ x, f x = true) l.
Proof.
  induction l as [|x l IH]; simpl; [by constructor|].
  pose proof (count_if_le f l) as Hle. destruct (f x) eqn:E; [|lia].
  intros Hlen. constructor; [done|]. apply IH. lia.
Qed.

Lemma count_if_some {A} (f : A → bool) l :
  (count_if f l < length l)%nat → ∃ l1 x l2, l = l1 ++ x :: l2 ∧ f x = false.
Proof.
  induction l as [|x l IH]; simpl; [lia|].
  destruct (f x) eqn:E.
  - intros H. destruct IH as (l1 & y & l2 & -> & Hy); [lia|].
    by exists (x :: l1), y, l2.
  - intros _. by exists [], x, l.
Qed.

Section PipelineFacts.
Context {Image : Type} (c : config Image).
Implicit Types (s : state Image).

Ltac count_simpl :=
  repeat (rewrite ?count_if_app, ?length_app, ?sum_list_with_app in *;
          simpl in *).

Lemma inv_count_init : inv_count c init.
Proof. unfold inv_count. simpl. split_and!; auto with lia. Qed.

Lemma inv_count_step s s' : inv_count c s → step c s s' → inv_count c s'.
Proof.
  unfold inv_count.
  intros (H1 & H2 & H3 & H4 & H5 & H6 & H7 & H8 & H9) Hs.
  destruct Hs; count_simpl;
    repeat match goal with
           | H : paths c !! _ = Some _ |- _ => apply lookup_lt_Some in H
           | H : paths c !! _ = None |- _ => apply lookup_ge_None in H
           end;
    try (unfold readImage_start; destruct (decode c _); simpl);
    repeat match goal with
           | d : dispatcher _ |- _ => destruct d; simpl in *
           | l : loader |- _ => destruct l; simpl in *
           end;
    destruct_and?; split_and!; try done; try lia; try congruence.
Qed.

Lemma reachable_ind (P : state Image → Prop) :
  P init →
  (∀ s s', reachable c s → P s → step c s s' → P s') →
  ∀ s, reachable c s → P s.
Proof.
  intros Hi Hs s Hr. unfold reachable in Hr. revert s Hr.
  apply rtc_ind_r; [done|]. intros s s' Hr Hstep HP. by apply (Hs s s').
Qed.

Lemma reachable_step s s' : reachable c s → step c s s' → reachable c s'.
Proof. intros Hr Hs. by eapply rtc_r. Qed.

Lemma inv_count_reachable s : reachable c s → inv_count c s.
Proof.
  revert s. apply reachable_ind.
  - apply inv_count_init.
  - intros s s' _. apply inv_count_step.
Qed.

Lemma measure_step s s' : step c s s' → (measure c s' < measure c s)%nat.
Proof.
  unfold measure. intros Hs.
  destruct Hs; count_simpl;
    repeat match goal with
           | H : paths c !! _ = Some _ |- _ => apply lookup_lt_Some in H
           | H : paths c !! _ = None |- _ => apply lookup_ge_None in H
           end;
    try (unfold readImage_start; destruct (decode c _); simpl);
    unfold worker_weight, perImage in *; simpl; try nia.
Qed.

(** No deadlock: as long as [main] has not returned, some goroutine
    can move. *)
Lemma progress s :
  (0 < cap c)%nat → reachable c s → mpc s = MWait → ∃ s', step c s s'.
Proof.
  intros Hcap Hr Hm. pose proof (inv_count_reachable s Hr) as Hinv.
  destruct s as [rs l im cl rf d n ws wf af m cr]. simpl in Hm. subst m.
  unfold inv_count in Hinv. simpl in Hinv.
  destruct Hinv as (H1 & H2 & H3 & H4 & H5 & H6 & H7 & H8 & _).
  destruct af as [|af]; [|eexists; apply m_exit].
  destruct d as [|x rest|i|]; simpl in *.
  - destruct im as [|x im]; [|eexists; apply d_recv].
    destruct cl; [eexists; apply d_closed|].
    destruct l as [k|i|]; simpl in *; [| |done].
    + destruct (paths c !! k) eqn:E; eexists; [by eapply l_spawn|by eapply l_spawned].
    + destruct (decide (i < length (paths c))%nat); [|eexists; by apply l_close].
      destruct rf as [|rf]; [|eexists; by apply l_recv].
      destruct (count_if_some reader_reported rs) as (rs1 & r & rs2 & -> & Hrep);
        [lia|].
      destruct r as [|x| |]; [| | |done].
      * destruct (lookup_lt_is_Some_2 (paths c) (length rs1)) as [p Hp].
        { destruct H1 as [<- _]. rewrite length_app. simpl. lia. }
        eexists. by eapply r_start.
      * eexists. apply r_send. simpl. lia.
      * eexists. by apply r_defer.
  - destruct rest; eexists; [apply d_next|apply d_spawn].
  - destruct (decide (i < n)%nat); [|eexists; apply d_signal; [done|lia]].
    destruct wf as [|wf]; [|eexists; by apply d_wait].
    destruct (count_if_some worker_reported ws) as (ws1 & w & ws2 & -> & Hrep);
      [lia|].
    destruct w as [x z [| |]]; [| |done].
    + eexists. apply w_start.
    + eexists. by apply w_defer.
  - simpl in H8. lia.
Qed.

(** Every run ends: from any state a run can be in, [main] returns,
    and it returns 0. *)
Lemma terminates s :
  (0 < cap c)%nat → reachable c s →
  ∃ s', rtc (step c) s s' ∧ mpc s' = MExited 0.
Proof.
  intros Hcap. remember (measure c s) as m eqn:Hm. revert s Hm.
  induction m as [m IH] using lt_wf_ind. intros s -> Hr.
  destruct (mpc s) as [|z] eqn:E.
  - destruct (progress s Hcap Hr E) as [s1 Hs].
    destruct (IH (measure c s1) (measure_step _ _ Hs) s1 eq_refl) as (s' & Hrun & He).
    { by eapply reachable_step. }
    exists s'. split; [|done]. by eapply rtc_l.
  - exists s. split; [done|].
    pose proof (inv_count_reachable s Hr) as Hinv. unfold inv_count in Hinv.
    rewrite E in Hinv. destruct Hinv as (_ & _ & _ & _ & _ & _ & _ & _ & ->). done.
Qed.

(** Steps happen only while [main] is blocked. *)
Lemma step_not_exited s s' : step c s s' → mpc s = MWait.
Proof. by destruct 1. Qed.

End PipelineFacts.

(** ** The pipeline: which images reach which tasks *)

Lemma lookup_middle_ne {A} (l1 l2 : list A) x y j :
  j ≠ length l1 → (l1 ++ y :: l2) !! j = (l1 ++ x :: l2) !! j.
Proof.
  intros Hj. destruct (decide (j < length l1)%nat).
  - by rewrite !lookup_app_l.
  - rewrite !lookup_app_r by lia.
    destruct (j - length l1)%nat eqn:E; [lia|done].
Qed.

Lemma lookup_middle_eq {A} (l1 l2 : list A) x y :
  (l1 ++ x :: l2) !! length l1 = Some y → y = x.
Proof. rewrite list_lookup_middle by done. by intros [= ->]. Qed.

Lemma lookup_middle_other {A} (l1 l2 : list A) x y j r :
  j ≠ length l1 → (l1 ++ y :: l2) !! j = Some r → (l1 ++ x :: l2) !! j = Some r.
Proof. intros Hj. by rewrite (lookup_middle_ne _ _ x y). Qed.

Section FlowFacts.
Context {Image : Type} (c : config Image).
Implicit Types (s : state Image) (d : imageData Image).

Lemma image_of_ptr j d : image_of c j d → ptr d = j.
Proof. by intros (p & im & _ & _ & ->). Qed.

Lemma image_of_inj j d d' : image_of c j d → image_of c j d' → d = d'.
Proof.
  intros (p & im & Hp & Hd & ->) (p' & im' & Hp' & Hd' & ->).
  rewrite Hp in Hp'. injection Hp' as <-. rewrite Hd in Hd'. by injection Hd' as <-.
Qed.

(** A load task that moves keeps being past its decoding once it is. *)
Lemma sent_ok_reader_move rs1 rs2 (x y : reader Image) l im cl rf dp n ws wf af m cr
    l' im' cl' rf' dp' n' ws' wf' af' m' cr' d :
  (reader_decoded x → reader_decoded y) →
  sent_ok c (State (rs1 ++ x :: rs2) l im cl rf dp n ws wf af m cr) d →
  sent_ok c (State (rs1 ++ y :: rs2) l' im' cl' rf' dp' n' ws' wf' af' m' cr') d.
Proof.
  intros Hxy [Hi (r & Hr & Hd)]. split; [done|]. simpl in *.
  destruct (decide (ptr d = length rs1)) as [E|E].
  - rewrite E in *. rewrite list_lookup_middle in Hr by done.
    injection Hr as <-. exists y.
    split; [by apply list_lookup_middle|by apply Hxy].
  - exists r. by rewrite (lookup_middle_ne _ _ x).
Qed.

Lemma tasks_stage ws1 ws2 (x : imageData Image) z st st' :
  tasks (ws1 ++ Worker x z st :: ws2) = tasks (ws1 ++ Worker x z st' :: ws2).
Proof. unfold tasks. by rewrite !fmap_app. Qed.

Lemma inv_flow_init : inv_flow c init.
Proof.
  exists []. simpl. split_and!; try done; constructor.
Qed.

Lemma inv_flow_step s s' : inv_flow c s → step c s s' → inv_flow c s'.
Proof.
  intros (recvd & Ht & Hnd & Hok & Hall & Hsend) Hs.
  destruct Hs; simpl in *.
  - (* l_spawn *)
    exists recvd. split_and!; try done.
    + eapply Forall_impl; [exact Hok|]. intros x (Hi & r & Hr & Hd).
      split; [done|]. exists r. split; [|done]. simpl in *.
      by apply lookup_app_l_Some.
    + intros j r Hr Hd. apply lookup_app_Some in Hr as [Hr|[_ Hr]].
      * by apply (Hall j r).
      * apply list_lookup_singleton_Some in Hr as [_ <-].
        by destruct Hd.
    + intros j x Hr. apply lookup_app_Some in Hr as [Hr|[_ Hr]].
      * by apply Hsend.
      * by apply list_lookup_singleton_Some in Hr as [_ ?].
  - (* l_spawned *) exists recvd. split_and!; done.
  - (* l_recv *) exists recvd. split_and!; done.
  - (* l_close *) exists recvd. split_and!; done.
  - (* r_start *)
    exists recvd. split_and!; try done.
    + eapply Forall_impl; [exact Hok|]. intros x.
      apply sent_ok_reader_move. by intros [|].
    + intros j r Hr Hd Hdec.
      destruct (decide (j = length rs1)) as [->|E].
      * apply lookup_middle_eq in Hr as ->.
        destruct Hdec as (p' & im' & Hp' & Hdec). rewrite H in Hp'.
        injection Hp' as <-. unfold readImage_start in Hd. rewrite Hdec in Hd.
        by destruct Hd.
      * apply (lookup_middle_other _ _ RStart) in Hr; [|done]. by apply (Hall j r).
    + intros j x Hr. destruct (decide (j = length rs1)) as [->|E].
      * apply lookup_middle_eq in Hr.
        unfold readImage_start in Hr. destruct (decode c p) as [im'|] eqn:Hdec; [|done].
        injection Hr as ->. by exists p, im'.
      * apply (lookup_middle_other _ _ RStart) in Hr; [|done]. by apply Hsend.
  - (* r_send *)
    assert (Hx : image_of c (length rs1) x).
    { apply Hsend. by rewrite list_lookup_middle. }
    pose proof (image_of_ptr _ _ Hx) as Hptr.
    exists recvd.
    assert (E : recvd ++ current d ++ im ++ [x] = (recvd ++ current d ++ im) ++ [x])
      by (by rewrite <- !app_assoc).
    simpl. rewrite E. clear E.
    split_and!; try done.
    + rewrite fmap_app. simpl. apply NoDup_app. split_and!; [done| |apply NoDup_singleton].
      intros j Hj ->%list_elem_of_singleton.
      apply list_elem_of_fmap in Hj as (x' & Hj & Hx').
      rewrite Forall_forall in Hok. destruct (Hok x' Hx') as (_ & r & Hr & Hd).
      rewrite <- Hj, Hptr in Hr. apply lookup_middle_eq in Hr as ->. by destruct Hd.
    + apply Forall_app. split.
      * eapply Forall_impl; [exact Hok|]. intros x'.
        apply sent_ok_reader_move. by intros [|].
      * apply Forall_singleton. split; [by rewrite Hptr|].
        exists RDefer. simpl. rewrite Hptr. split; [by rewrite list_lookup_middle|by left].
    + intros j r Hr Hd Hdec. rewrite fmap_app. apply elem_of_app.
      destruct (decide (j = length rs1)) as [->|E].
      * right. simpl. rewrite Hptr. apply list_elem_of_here.
      * left. apply (lookup_middle_other _ _ (RSend x)) in Hr; [|done].
        by apply (Hall j r).
    + intros j x' Hr. destruct (decide (j = length rs1)) as [->|E].
      * by apply lookup_middle_eq in Hr.
      * apply (lookup_middle_other _ _ (RSend x)) in Hr; [|done]. by apply Hsend.
  - (* r_defer *)
    exists recvd. split_and!; try done.
    + eapply Forall_impl; [exact Hok|]. intros x.
      apply sent_ok_reader_move. intros _. by right.
    + intros j r Hr Hd Hdec. destruct (decide (j = length rs1)) as [->|E].
      * apply (Hall (length rs1) RDefer); [by rewrite list_lookup_middle|by left|done].
      * apply (lookup_middle_other _ _ RDefer) in Hr; [|done]. by apply (Hall j r).
    + intros j x' Hr. destruct (decide (j = length rs1)) as [->|E].
      * by apply lookup_middle_eq in Hr.
      * apply (lookup_middle_other _ _ RDefer) in Hr; [|done]. by apply Hsend.
  - (* d_recv *)
    exists recvd. split_and!; try done.
    exists []. split; [done|]. by rewrite app_nil_r.
  - (* d_closed *) exists recvd. split_and!; done.
  - (* d_spawn *)
    destruct Ht as (pre & Hpre & Ht).
    exists recvd. split_and!; try done.
    exists (pre ++ [z]). split; [by rewrite <- app_assoc|].
    simpl. unfold tasks in *. rewrite !fmap_app, Ht. simpl. by rewrite <- app_assoc.
  - (* d_next *)
    destruct Ht as (pre & Hpre & Ht). rewrite app_nil_r in Hpre. subst pre.
    exists (recvd ++ [x]). simpl. rewrite <- !app_assoc. split_and!; try done.
    rewrite Ht. unfold tasks_of. rewrite bind_app. simpl. by rewrite app_nil_r.
  - (* d_wait *) exists recvd. split_and!; done.
  - (* d_signal *) exists recvd. split_and!; done.
  - (* w_start *)
    exists recvd. simpl. rewrite (tasks_stage _ _ _ _ _ WStart). split_and!; done.
  - (* w_defer *)
    exists recvd. simpl. rewrite (tasks_stage _ _ _ _ _ WDefer). split_and!; done.
  - (* m_exit *) exists recvd. split_and!; done.
Qed.

Lemma inv_flow_reachable s : reachable c s → inv_flow c s.
Proof.
  revert s. apply reachable_ind.
  - apply inv_flow_init.
  - intros s s' _. apply inv_flow_step.
Qed.

Lemma inv_files_step s s' : inv_files c s → step c s s' → inv_files c s'.
Proof.
  unfold inv_files. intros Hf Hs. destruct Hs; simpl in *; try done.
  - (* d_spawn *)
    rewrite filter_app, filter_cons_False, filter_nil, app_nil_r; [done|].
    simpl. discriminate.
  - (* w_start *)
    rewrite filter_app, filter_cons_False in Hf by (simpl; discriminate).
    rewrite filter_app. unfold resizeImage_files.
    destruct (create c (outputPath (toPath c) (name x) z)) eqn:E.
    + rewrite filter_cons_True by done. unfold tasks in *.
      rewrite !fmap_app, fmap_cons, Hf, !fmap_app. simpl.
      by rewrite Permutation_middle.
    + by rewrite filter_cons_False by (unfold made; simpl; unfold task_path; simpl; congruence).
  - (* w_defer *)
    rewrite filter_app in *.
    destruct (decide (made c (Worker x z WDefer) = true)) as [E|E].
    + rewrite filter_cons_True in Hf by done. rewrite filter_cons_True by done.
      unfold tasks in *. by rewrite !fmap_app, fmap_cons in *.
    + rewrite filter_cons_False in Hf by done. by rewrite filter_cons_False by done.
Qed.

Lemma inv_files_reachable s : reachable c s → inv_files c s.
Proof.
  revert s. apply reachable_ind.
  - unfold inv_files. done.
  - intros s s' _. apply inv_files_step.
Qed.

(** *** When the final signal has been sent *)

Lemma exited_signalled s : reachable c s → exited s → signalled s.
Proof.
  intros Hr [z Hz]. apply inv_count_reachable in Hr. unfold inv_count in Hr.
  unfold signalled. destruct Hr as (_ & _ & _ & _ & _ & _ & _ & H8 & _).
  destruct (dpc s); try done; destruct H8 as [_ H8]; congruence.
Qed.

Lemma signalled_all_reported s :
  reachable c s → signalled s →
  lpc s = LClosed ∧ images s = []
  ∧ length (readers s) = length (paths c)
  ∧ Forall (λ r, r = RDone) (readers s)
  ∧ Forall (λ w, w_stage w = WDone) (workers s).
Proof.
  intros Hr Hd. apply inv_count_reachable in Hr. unfold inv_count in Hr.
  unfold signalled in Hd. rewrite Hd in Hr. simpl in Hr.
  destruct Hr as (H1 & H2 & H3 & [H4 H4'] & H5 & H6 & _).
  rewrite H4 in H3. destruct (lpc s) eqn:El; try done. simpl in H2.
  split_and!; try done.
  - eapply Forall_impl; [apply (count_if_all reader_reported); lia|].
    by intros [].
  - eapply Forall_impl; [apply (count_if_all worker_reported); lia|].
    intros w. unfold worker_reported. by destruct (w_stage w).
Qed.

Lemma elem_of_decoded_from i ps d :
  d ∈ decoded_from c i ps
  ↔ ∃ k p im, ps !! k = Some p ∧ decode c p = Some im
              ∧ d = ImageData (i + k) im (imageName p).
Proof.
  revert i. induction ps as [|p ps IH]; intros i; simpl.
  - split; [by intros ?%elem_of_nil|]. by intros (k & p & im & ? & _).
  - assert (Hrest : d ∈ decoded_from c (S i) ps
                    ↔ ∃ k p' im, (p :: ps) !! S k = Some p' ∧ decode c p' = Some im
                                 ∧ d = ImageData (i + S k) im (imageName p')).
    { rewrite IH. split; intros (k & p' & im & Hk & Hd & ->);
        exists k, p', im; (split_and!; [done|done|f_equal; lia]). }
    destruct (decode c p) as [im|] eqn:E.
    + rewrite elem_of_cons, Hrest. split.
      * intros [->|(k & p' & im' & ?)].
        -- exists 0%nat, p, im. by rewrite Nat.add_0_r.
        -- by exists (S k), p', im'.
      * intros ([|k] & p' & im' & Hk & Hd & ->).
        -- left. injection Hk as <-. rewrite E in Hd. injection Hd as <-.
           by rewrite Nat.add_0_r.
        -- right. by exists k, p', im'.
    + rewrite Hrest. split.
      * intros (k & p' & im' & ?). by exists (S k), p', im'.
      * intros ([|k] & p' & im' & Hk & Hd & ->).
        -- injection Hk as <-. congruence.
        -- by exists k, p', im'.
Qed.

Lemma elem_of_decoded d : d ∈ decoded_from c 0 (paths c) ↔ image_of c (ptr d) d.
Proof.
  rewrite elem_of_decoded_from. unfold image_of. split.
  - intros (k & p & im & Hk & Hd & ->). by exists p, im.
  - intros (p & im & Hk & Hd & Hx). exists (ptr d), p, im. done.
Qed.

Lemma NoDup_decoded_from i ps : NoDup (decoded_from c i ps).
Proof.
  revert i. induction ps as [|p ps IH]; intros i; simpl; [constructor|].
  destruct (decode c p); [|done]. constructor; [|done].
  intros (k & p' & im & _ & _ & [= E _ _])%elem_of_decoded_from. lia.
Qed.

(** Once the final signal is out, the dispatched images are those of
    the sources that decode. *)
Lemma signalled_tasks s :
  reachable c s → signalled s →
  tasks (workers s) ≡ₚ tasks_of c (decoded_from c 0 (paths c)).
Proof.
  intros Hr Hd.
  destruct (signalled_all_reported s Hr Hd) as (_ & Him & Hlen & Hrs & _).
  destruct (inv_flow_reachable s Hr) as (recvd & Ht & Hnd & Hok & Hall & _).
  unfold signalled in Hd. rewrite Hd, Him in *. simpl in *.
  rewrite app_nil_r in *. rewrite Ht. unfold tasks_of. f_equiv.
  apply NoDup_Permutation.
  - by apply NoDup_fmap_1 in Hnd.
  - apply NoDup_decoded_from.
  - intros d. rewrite elem_of_decoded. rewrite Forall_forall in Hok. split.
    + intros Hin. by apply Hok.
    + intros Hi. pose proof Hi as (p & im & Hp & Hdec & _).
      destruct (lookup_lt_is_Some_2 (readers s) (ptr d)) as [r Hrd].
      { rewrite Hlen. by eapply lookup_lt_Some. }
      assert (r = RDone) as ->.
      { rewrite Forall_forall in Hrs. apply Hrs. by eapply list_elem_of_lookup_2. }
      assert (Hj : ptr d ∈ ptr <$> recvd).
      { apply (Hall (ptr d) RDone); [done|by right|by exists p, im]. }
      apply list_elem_of_fmap in Hj as (d' & Hpt & Hin').
      destruct (Hok d' Hin') as [Hi' _]. rewrite <- Hpt in Hi'.
      by rewrite (image_of_inj _ _ _ Hi Hi').
Qed.

End FlowFacts.

(** ** Output paths are told apart by name and size *)

Lemma cut_nonempty g s : Strings.cut g s ≠ [].
Proof. destruct s as [|c s]; simpl; [done|]. destruct (g c); [done|]. by destruct (Strings.cut g s). Qed.

Lemma cut_app_sep g a c b :
  g c = true → Strings.cut g (a ++ c :: b) = Strings.cut g a ++ Strings.cut g b.
Proof.
  intros Hc. induction a as [|x a IH]; simpl.
  - by rewrite Hc.
  - rewrite IH. destruct (g x); [done|].
    pose proof (cut_nonempty g a). by destruct (Strings.cut g a).
Qed.

Lemma cut_plain g s : Forall (λ c, g c = false) s → Strings.cut g s = [s].
Proof.
  induction 1 as [|c s Hc _ IH]; simpl; [done|]. by rewrite Hc, IH.
Qed.

Lemma isSlash_false s :
  "/"%char ∉ s → Forall (λ c, Filepath.isSlash c = false) s.
Proof.
  intros H. apply Forall_forall. intros c Hc. unfold Filepath.isSlash.
  rewrite is_byte_spec. apply bool_decide_eq_false_2. by intros ->.
Qed.

Lemma cleanStep_plain rooted st f :
  plainName f → Filepath.cleanStep rooted st f = f :: st.
Proof.
  intros (H1 & _ & H2 & H3). unfold Filepath.cleanStep.
  by rewrite !bool_decide_eq_false_2.
Qed.

Lemma joinSlash_snoc l f :
  Filepath.joinSlash (l ++ [f])
  = match l with [] => [] | _ => Filepath.joinSlash l ++ str "/" end ++ f.
Proof.
  induction l as [|a l IH]; [reflexivity|].
  destruct l as [|b l].
  { change (a ++ str "/" ++ f = (a ++ str "/") ++ f). by rewrite app_assoc. }
  change (Filepath.joinSlash ((a :: b :: l) ++ [f]))
    with (a ++ str "/" ++ Filepath.joinSlash ((b :: l) ++ [f])).
  rewrite IH.
  change (Filepath.joinSlash (a :: b :: l))
    with (a ++ str "/" ++ Filepath.joinSlash (b :: l)).
  by rewrite <- !app_assoc.
Qed.

(** Joining a plain file name to a directory only prefixes it. *)
Lemma Join_plain a f : plainName f → Filepath.Join a f = joinPrefix a ++ f.
Proof.
  intros Hf. pose proof Hf as (Hne & Hs & _).
  destruct a as [|c0 a].
  - destruct f as [|x f]; [done|].
    assert (Hx : Filepath.isSlash x = false).
    { apply isSlash_false in Hs. by inversion Hs. }
    unfold Filepath.Join, Filepath.Clean, joinPrefix.
    rewrite (cut_plain _ (x :: f)) by by apply isSlash_false.
    rewrite Hx. cbn [fold_left]. by rewrite cleanStep_plain.
  - unfold Filepath.Join, joinPrefix.
    change ((c0 :: a) ++ str "/" ++ f) with (c0 :: (a ++ "/"%char :: f)).
    unfold Filepath.Clean.
    change (c0 :: (a ++ "/"%char :: f)) with ((c0 :: a) ++ "/"%char :: f).
    rewrite cut_app_sep by done.
    rewrite (cut_plain _ f) by by apply isSlash_false.
    rewrite fold_left_app. cbn [fold_left]. rewrite cleanStep_plain by done.
    set (st := fold_left _ _ _).
    change (rev (f :: st)) with (rev st ++ [f]). rewrite joinSlash_snoc.
    destruct (Filepath.isSlash c0); rewrite <- ?app_assoc; by destruct (rev st).
Qed.

Lemma first_sep_inj {A} (x : A) l1 l2 k1 k2 :
  x ∉ l1 → x ∉ k1 → l1 ++ x :: l2 = k1 ++ x :: k2 → l1 = k1 ∧ l2 = k2.
Proof.
  revert k1. induction l1 as [|a l1 IH]; intros [|b k1] H1 H2 E; simpl in E.
  - by injection E as ->.
  - injection E as -> _. destruct H2. apply list_elem_of_here.
  - injection E as -> _. destruct H1. apply list_elem_of_here.
  - injection E as -> E. destruct (IH k1) as [-> ->]; try done.
    + intros ?. apply H1. by apply list_elem_of_further.
    + intros ?. apply H2. by apply list_elem_of_further.
Qed.

Lemma last_sep_inj {A} (x : A) l1 l2 k1 k2 :
  x ∉ l2 → x ∉ k2 → l1 ++ x :: l2 = k1 ++ x :: k2 → l1 = k1 ∧ l2 = k2.
Proof.
  intros H1 H2 E. apply (f_equal (@rev A)) in E.
  rewrite !rev_app_distr in E. simpl in E. rewrite <- !app_assoc in E. simpl in E.
  apply first_sep_inj in E as [E1 E2].
  - split; apply rev_inj; done.
  - by rewrite list_elem_of_In, <- in_rev, <- list_elem_of_In.
  - by rewrite list_elem_of_In, <- in_rev, <- list_elem_of_In.
Qed.

Lemma string_of_uint_digits d :
  Forall itoa_byte (list_ascii_of_string (NilEmpty.string_of_uint d)).
Proof.
  induction d; simpl; [constructor|..]; (constructor; [by right|done]).
Qed.

Lemma Itoa_bytes z : Forall itoa_byte (Strconv.Itoa z).
Proof.
  unfold Strconv.Itoa, str. destruct (Z.to_int z) as [d|d]; simpl.
  - destruct d; try apply (string_of_uint_digits (_ _)).
    constructor; [by right|constructor].
  - constructor; [by left|].
    destruct d; try apply (string_of_uint_digits (_ _)).
    constructor; [by right|constructor].
Qed.

Lemma Itoa_no c z : ¬ itoa_byte c → c ∉ Strconv.Itoa z.
Proof.
  intros Hc Hin. pose proof (Itoa_bytes z) as H. rewrite Forall_forall in H. auto.
Qed.

Lemma to_int_proper z : Z.to_int z ≠ Decimal.Pos Decimal.Nil ∧ Z.to_int z ≠ Decimal.Neg Decimal.Nil.
Proof.
  destruct z as [|p|p]; simpl; (split; [|try done]); try done.
  - intros [= E]. by apply DecimalPos.Unsigned.to_uint_nonnil in E.
  - intros [= E]. by apply DecimalPos.Unsigned.to_uint_nonnil in E.
Qed.

Lemma Itoa_inj z z' : Strconv.Itoa z = Strconv.Itoa z' → z = z'.
Proof.
  unfold Strconv.Itoa, str. intros E.
  apply (f_equal string_of_list_ascii) in E.
  rewrite !string_of_list_ascii_of_string in E.
  apply (f_equal NilZero.int_of_string) in E.
  destruct (to_int_proper z), (to_int_proper z').
  rewrite !NilZero.isi in E by done. injection E as E.
  by apply DecimalZ.to_int_inj.
Qed.

Lemma outputName_plain n z :
  "/"%char ∉ n → plainName (n ++ str "_" ++ Strconv.Itoa z ++ str ".jpg").
Proof.
  intros Hn. split_and!.
  - by destruct n.
  - rewrite !elem_of_app. intros [?|[H|[H|H]]]; [done| | |].
    + apply list_elem_of_singleton in H. discriminate.
    + revert H. apply Itoa_no. intros [?|?]; discriminate.
    + vm_compute in H. repeat (apply elem_of_cons in H as [H|H]; [discriminate|]).
      by apply elem_of_nil in H.
  - intros E. apply (f_equal length) in E. rewrite !length_app in E.
    vm_compute (length (str ".jpg")) in E. vm_compute (length (str ".")) in E. lia.
  - intros E. apply (f_equal length) in E. rewrite !length_app in E.
    vm_compute (length (str ".jpg")) in E. vm_compute (length (str "..")) in E.
    vm_compute (length (str "_")) in E. lia.
Qed.

(** Distinct (name, size) pairs give distinct output paths. *)
Lemma outputPath_inj a n z n' z' :
  "/"%char ∉ n → "/"%char ∉ n' →
  outputPath a n z = outputPath a n' z' → n = n' ∧ z = z'.
Proof.
  intros Hn Hn'. unfold outputPath.
  rewrite !Join_plain by by apply outputName_plain.
  intros E. apply app_inv_head in E. rewrite !app_assoc in E.
  apply app_inv_tail in E. rewrite <- !app_assoc in E.
  apply last_sep_inj in E as [-> E].
  - split; [done|]. by apply Itoa_inj.
  - apply Itoa_no. intros [?|?]; discriminate.
  - apply Itoa_no. intros [?|?]; discriminate.
Qed.

(** ** The pipeline: what a finished run leaves behind *)




Section PipelineResults.
Context {Image : Type} (c : config Image).
Implicit Types (s : state Image).

Lemma tasks_made ws :
  Forall (λ w, w_stage w = WDone) ws →
  tasks (filter (λ w, made c w = true) ws)
  = filter (λ t, create c (task_path c t) = true) (tasks ws).
Proof.
  induction 1 as [|[x z st] ws Hw _ IH]; [done|].
  simpl in Hw. subst st. unfold tasks in *. rewrite fmap_cons. simpl.
  destruct (decide (create c (task_path c (x, z)) = true)) as [E|E].
  - rewrite !filter_cons_True by done. rewrite fmap_cons. simpl. by rewrite IH.
  - rewrite !filter_cons_False by done. done.
Qed.

Lemma creatable_fmap (ts : list (imageData Image * Z)) :
  task_path c <$> filter (λ t, create c (task_path c t) = true) ts
  = creatable c (task_path c <$> ts).
Proof.
  unfold creatable. induction ts as [|t ts IH]; [done|].
  rewrite fmap_cons.
  destruct (decide (create c (task_path c t) = true)) as [E|E].
  - rewrite !filter_cons_True by done. rewrite fmap_cons. by rewrite IH.
  - by rewrite !filter_cons_False by done.
Qed.

Lemma task_path_tasks_of ds : task_path c <$> tasks_of c ds = outputs_of c ds.
Proof.
  unfold tasks_of, outputs_of. induction ds as [|d ds IH]; [done|].
  rewrite !bind_cons, fmap_app, IH. f_equal. by rewrite <- list_fmap_compose.
Qed.

(** The files of a finished run: one per (image, size) pair of the
    sources that decode, as far as [os.Create] succeeds. *)
Lemma signalled_created s :
  reachable c s → signalled s →
  created s ≡ₚ creatable c (outputs_of c (decoded_from c 0 (paths c))).
Proof.
  intros Hr Hd. rewrite (inv_files_reachable c s Hr).
  destruct (signalled_all_reported c s Hr Hd) as (_ & _ & _ & _ & Hws).
  rewrite tasks_made by done. rewrite creatable_fmap.
  unfold creatable. rewrite (signalled_tasks c s Hr Hd).
  by rewrite task_path_tasks_of.
Qed.





End PipelineResults.

(** ** The computed run is a run *)

Lemma split_first_Some {A} (f : A → bool) l l1 x l2 :
  split_first f l = Some (l1, x, l2) → l = l1 ++ x :: l2.
Proof.
  revert l1. induction l as [|y l IH]; intros l1; simpl; [done|].
  destruct (f y).
  - by intros [= <- <- <-].
  - destruct (split_first f l) as [[[k1 z] k2]|]; [|done].
    intros [= <- <- <-]. by rewrite (IH k1).
Qed.

Section SchedFacts.
Context {Image : Type} (c : config Image).
Implicit Types (s : state Image).

Lemma sched_main_step s s' : sched_main s = Some s' → step c s s'.
Proof.
  destruct s as [rs l im cl rf d n ws wf af m cr]. simpl.
  destruct m, af; intros [= <-]. apply m_exit.
Qed.

Lemma sched_dispatcher_step s s' : sched_dispatcher c s = Some s' → step c s s'.
Proof.
  destruct s as [rs l im cl rf d n ws wf af m cr]. simpl.
  destruct m; [|done]. destruct d as [|x [|z rest]|i|].
  - destruct im; [destruct cl|]; intros [= <-]; constructor.
  - intros [= <-]. constructor.
  - intros [= <-]. constructor.
  - repeat case_decide; [destruct wf|..]; intros [= <-]; by constructor.
  - done.
Qed.

Lemma sched_worker_step s s' : sched_worker c s = Some s' → step c s s'.
Proof.
  destruct s as [rs l im cl rf d n ws wf af m cr]. simpl.
  destruct m; [|done].
  destruct (split_first _ ws) as [[[ws1 [x z st]] ws2]|] eqn:E; [|done].
  apply split_first_Some in E as ->.
  destruct st; [|case_decide|]; intros [= <-]; by constructor.
Qed.

Lemma sched_loader_step s s' : sched_loader c s = Some s' → step c s s'.
Proof.
  destruct s as [rs l im cl rf d n ws wf af m cr]. simpl.
  destruct m; [|done]. destruct l as [k|i|]; [| |done].
  - destruct (paths c !! k) eqn:E; intros [= <-]; by econstructor.
  - case_decide; [destruct rf|]; intros [= <-]; by constructor.
Qed.

Lemma sched_reader_step s s' : sched_reader c s = Some s' → step c s s'.
Proof.
  destruct s as [rs l im cl rf d n ws wf af m cr]. simpl.
  destruct m; [|done].
  destruct (split_first _ rs) as [[[rs1 r] rs2]|] eqn:E; [|done].
  apply split_first_Some in E as ->.
  destruct r as [|x| |].
  - destruct (paths c !! length rs1) eqn:E; intros [= <-]. by constructor.
  - case_decide; [|done]. destruct cl; intros [= <-]. by constructor.
  - case_decide; intros [= <-]. by constructor.
  - done.
Qed.

Lemma sched_step s s' : sched c s = Some s' → step c s s'.
Proof.
  unfold sched, orElse.
  destruct (sched_main s) eqn:E1; [intros [= <-]; by apply sched_main_step|].
  destruct (sched_dispatcher c s) eqn:E2;
    [intros [= <-]; by apply sched_dispatcher_step|].
  destruct (sched_worker c s) eqn:E3; [intros [= <-]; by apply sched_worker_step|].
  destruct (sched_loader c s) eqn:E4; [intros [= <-]; by apply sched_loader_step|].
  apply sched_reader_step.
Qed.

Lemma run_reachable fuel s : reachable c s → reachable c (run c fuel s).
Proof.
  revert s. induction fuel as [|fuel IH]; intros s Hr; simpl; [done|].
  destruct (sched c s) as [s'|] eqn:E; [|done].
  apply IH. eapply reachable_step; [done|]. by apply sched_step.
Qed.

Lemma run_init_reachable fuel : reachable c (run c fuel init).
Proof. apply run_reachable. apply rtc_refl. Qed.

End SchedFacts.

Example run_two :
  mpc (run config_two 100 init) = MExited 0
  ∧ created (run config_two 100 init)
    = [str "out/b_100.jpg"; str "out/b_50.jpg"; str "out/a_100.jpg"; str "out/a_50.jpg"].
Proof. vm_compute. done. Qed.

Example run_mixed :
  mpc (run config_mixed 100 init) = MExited 0
  ∧ created (run config_mixed 100 init)
    = [str "out/b_100.jpg"; str "out/b_50.jpg"; str "out/a_50.jpg"]
  ∧ readers (run config_mixed 100 init) = [RDone; RDone; RDone].
Proof. vm_compute. done. Qed.

Example run_dup :
  mpc (run config_dup 100 init) = MExited 0
  ∧ created (run config_dup 100 init) = [str "out/a_50.jpg"; str "out/a_50.jpg"]
  ∧ distinct_files (created (run config_dup 100 init)) = 1%nat.
Proof. vm_compute. done. Qed.

(** ** The claims about the pipeline *)

Section PipelineClaims.
Context {Image : Type} (c : config Image).
Implicit Types (s : state Image).

(** Every resize task works on an image that its load task has
    decoded. *)
Lemma workers_sent_ok s :
  reachable c s → Forall (λ w, sent_ok c s (w_img w)) (workers s).
Proof.
  intros Hr. destruct (inv_flow_reachable c s Hr) as (recvd & Ht & _ & Hok & _).
  rewrite Forall_forall in Hok. apply Forall_forall. intros w Hw.
  apply Hok.
  assert (Hin : (w_img w, w_size w) ∈ tasks (workers s)).
  { unfold tasks. by apply (list_elem_of_fmap_2 (λ w, (w_img w, w_size w))). }
  assert (Hof : ∀ ds t, t ∈ tasks_of c ds → t.1 ∈ ds).
  { intros ds t (d & (z & -> & _)%list_elem_of_fmap & Hd)%list_elem_of_bind. done. }
  destruct (dpc s) as [|x rest|i|] eqn:Ed; simpl.
  - rewrite Ht in Hin. apply Hof in Hin. apply elem_of_app. by left.
  - destruct Ht as (pre & _ & Ht). rewrite Ht in Hin.
    apply elem_of_app in Hin as [Hin|Hin].
    + apply Hof in Hin. apply elem_of_app. by left.
    + apply list_elem_of_fmap in Hin as (z & [= -> _] & _).
      apply elem_of_app. right. apply list_elem_of_here.
  - rewrite Ht in Hin. apply Hof in Hin. apply elem_of_app. by left.
  - rewrite Ht in Hin. apply Hof in Hin. apply elem_of_app. by left.
Qed.

End PipelineClaims.




(** C2: in every state of every run, once the final completion signal
    has been sent (and [main] returns only after it), a load task has
    been spawned for every source and each of them, as each resize
    task spawned, has reported; every resize task ever spawned works on
    an image whose load task is past a successful decoding; a source
    that fails to decode has no resize task at all, yet its load task
    reports like any other: the signals of the load tasks that
    returned are those buffered plus those [readImages] has taken. *)
Theorem completion_signal_after_all_tasks {Image : Type} (c : config Image)
    (s : state Image) :
  reachable c s →
  (signalled s →
     length (readers s) = length (paths c)
     ∧ Forall (λ r, reader_reported r = true) (readers s)
     ∧ Forall (λ w, worker_reported w = true) (workers s))
  ∧ (exited s → signalled s)
  ∧ Forall (λ w, sent_ok c s (w_img w)) (workers s)
  ∧ (∀ j p, paths c !! j = Some p → decode c p = None →
       (∀ w, w ∈ workers s → ptr (w_img w) ≠ j)
       ∧ (signalled s → readers s !! j = Some RDone))
  ∧ count_if reader_reported (readers s) = (rfin s + lrecv c (lpc s))%nat.
Proof.
  intros Hr.
  pose proof (workers_sent_ok c s Hr) as Hws.
  split_and!.
  - intros Hd. destruct (signalled_all_reported c s Hr Hd) as (_ & _ & Hl & Hrs & Hw).
    split_and!; [done| |].
    + eapply Forall_impl; [exact Hrs|]. by intros r ->.
    + eapply Forall_impl; [exact Hw|]. intros w E. unfold worker_reported. by rewrite E.
  - by apply (exited_signalled c).
  - done.
  - intros j p Hp Hdec. split.
    + intros w Hw Hj. rewrite Forall_forall in Hws.
      destruct (Hws w Hw) as [(p' & im & Hp' & Hdec' & _) _].
      rewrite Hj, Hp in Hp'. injection Hp' as <-. congruence.
    + intros Hd. destruct (signalled_all_reported c s Hr Hd) as (_ & _ & Hl & Hrs & _).
      destruct (lookup_lt_is_Some_2 (readers s) j) as [r Hrd].
      { rewrite Hl. by eapply lookup_lt_Some. }
      rewrite Hrd. f_equal. rewrite Forall_forall in Hrs. apply Hrs.
      by eapply list_elem_of_lookup_2.
  - by destruct (inv_count_reachable c s Hr) as (_ & H2 & _).
Qed.

Lemma completion_signal_after_all_tasks_witness :
  signalled (run config_mixed 100 init)
  ∧ (signalled (run config_mixed 100 init) →
     length (readers (run config_mixed 100 init)) = length (paths config_mixed)
     ∧ Forall (λ r, reader_reported r = true) (readers (run config_mixed 100 init))
     ∧ Forall (λ w, worker_reported w = true) (workers (run config_mixed 100 init)))
  ∧ (exited (run config_mixed 100 init) → signalled (run config_mixed 100 init))
  ∧ Forall (λ w, sent_ok config_mixed (run config_mixed 100 init) (w_img w))
           (workers (run config_mixed 100 init))
  ∧ (∀ j p, paths config_mixed !! j = Some p → decode config_mixed p = None →
       (∀ w, w ∈ workers (run config_mixed 100 init) → ptr (w_img w) ≠ j)
       ∧ (signalled (run config_mixed 100 init) →
          readers (run config_mixed 100 init) !! j = Some RDone))
  ∧ count_if reader_reported (readers (run config_mixed 100 init))
    = (rfin (run config_mixed 100 init)
       + lrecv config_mixed (lpc (run config_mixed 100 init)))%nat.
Proof.
  split; [vm_compute; reflexivity|].
  apply (completion_signal_after_all_tasks config_mixed (run config_mixed 100 init)).
  apply run_init_reachable.
Defined.

(** C3: whatever [decode] and [create] answer, that is however many
    load and resize tasks fail, a run that has started cannot get
    stuck before [main] returns and cannot go on for ever: from every
    state of a run the process reaches its exit, the exit status is 0,
    and the exit comes after the final completion signal.  Every
    channel carries bare signals, so that no error reaches [main]. *)
Theorem pipeline_exits_zero {Image : Type} (c : config Image) (s : state Image) :
  (0 < cap c)%nat →
  reachable c s →
  (∃ s', rtc (step c) s s' ∧ mpc s' = MExited 0 ∧ signalled s')
  ∧ (∀ z, mpc s = MExited z → z = 0 ∧ signalled s)
  ∧ (mpc s = MWait → ∃ s', step c s s')
  ∧ (∀ s', step c s s' → (measure c s' < measure c s)%nat).
Proof.
  intros Hcap Hr.
  assert (Hz : ∀ s0 z, reachable c s0 → mpc s0 = MExited z → z = 0 ∧ signalled s0).
  { intros s0 z Hr0 E. split.
    - destruct (inv_count_reachable c s0 Hr0) as (_ & _ & _ & _ & _ & _ & _ & _ & H9).
      by rewrite E in H9.
    - apply (exited_signalled c); [done|]. by exists z. }
  split_and!.
  - destruct (terminates c s Hcap Hr) as (s' & Hrun & He).
    exists s'. split_and!; [done|done|].
    apply (Hz s' 0); [|done]. unfold reachable. by etrans.
  - intros z E. by apply Hz.
  - by apply progress.
  - apply measure_step.
Qed.

Lemma pipeline_exits_zero_witness :
  (∃ s', rtc (step config_mixed) init s' ∧ mpc s' = MExited 0 ∧ signalled s')
  ∧ (∀ z, mpc (init : state unit) = MExited z → z = 0 ∧ signalled (init : state unit))
  ∧ (mpc (init : state unit) = MWait → ∃ s', step config_mixed init s')
  ∧ (∀ s', step config_mixed init s'
           → (measure config_mixed s' < measure config_mixed init)%nat).
Proof.
  apply (pipeline_exits_zero config_mixed init).
  - simpl. lia.
  - apply rtc_refl.
Defined.

(** ** Source enumeration for a directory name without metacharacters *)

Lemma hasMeta_cons c p :
  Filepath.hasMeta (c :: p) = false →
  is_byte c "*" = false ∧ is_byte c "?" = false ∧ is_byte c "[" = false
  ∧ is_byte c "\" = false ∧ Filepath.hasMeta p = false.
Proof.
  unfold Filepath.hasMeta. simpl. intros H.
  apply orb_false_iff in H as [H Hp].
  apply orb_false_iff in H as [H H4]. apply orb_false_iff in H as [H H3].
  apply orb_false_iff in H as [H1 H2]. done.
Qed.

Lemma hasMeta_plain p : Filepath.hasMeta p = false → forallb plain p = true.
Proof.
  induction p as [|c p IH]; [done|].
  intros (H1 & H2 & H3 & H4 & Hp)%hasMeta_cons. simpl.
  unfold plain. rewrite H2, H3, H4. simpl. by apply IH.
Qed.

Lemma scanBody_plain p rest :
  Filepath.hasMeta p = false →
  Filepath.scanBody (p ++ "*"%char :: rest) false false = (p, "*"%char :: rest).
Proof.
  induction p as [|c p IH]; [done|].
  intros (H1 & H2 & H3 & H4 & Hp)%hasMeta_cons.
  change ((c :: p) ++ "*"%char :: rest) with (c :: (p ++ "*"%char :: rest)).
  cbn [Filepath.scanBody]. rewrite H4, H3, H1. simpl.
  destruct (is_byte c "]"); by rewrite IH.
Qed.

Lemma scanChunk_plain c p rest :
  Filepath.hasMeta (c :: p) = false →
  Filepath.scanChunk ((c :: p) ++ "*"%char :: rest) = (false, c :: p, "*"%char :: rest).
Proof.
  intros H. pose proof H as (H1 & _)%hasMeta_cons.
  unfold Filepath.scanChunk.
  change ((c :: p) ++ "*"%char :: rest) with (c :: (p ++ "*"%char :: rest)).
  cbn [Filepath.dropStars]. rewrite H1.
  change (c :: (p ++ "*"%char :: rest)) with ((c :: p) ++ "*"%char :: rest).
  by rewrite scanBody_plain.
Qed.

(** A pattern made of a directory part without metacharacters and
    [*.jpg] is well formed. *)
Lemma Match_wellformed p :
  Filepath.hasMeta p = false → Filepath.Match (p ++ str "*.jpg") [] = Some false.
Proof.
  intros H. destruct p as [|c p]; [done|].
  unfold Filepath.Match. rewrite length_app.
  change (length (str "*.jpg")) with 5%nat.
  replace (length (c :: p) + 5)%nat with (S (length p + 5)) by (simpl; lia).
  change (str "*.jpg") with ("*"%char :: str ".jpg").
  change ((c :: p) ++ "*"%char :: str ".jpg")
    with (c :: (p ++ "*"%char :: str ".jpg")).
  cbn [Filepath.matchLoop].
  change (c :: (p ++ "*"%char :: str ".jpg"))
    with ((c :: p) ++ "*"%char :: str ".jpg").
  rewrite scanChunk_plain by done. cbn [andb].
  unfold Filepath.matchChunk.
  rewrite matchChunkLoop_plain by (done || by apply hasMeta_plain).
  done.
Qed.

Lemma hasMeta_app p q :
  Filepath.hasMeta (p ++ q) = Filepath.hasMeta p || Filepath.hasMeta q.
Proof. unfold Filepath.hasMeta. apply existsb_app. Qed.

Lemma Split_dir p f :
  (p = [] ∨ ∃ d, p = d ++ str "/") → "/"%char ∉ f →
  Filepath.Split (p ++ f) = (p, f).
Proof.
  intros Hp Hf. unfold Filepath.Split.
  assert (E : Filepath.untilSlash (rev (p ++ f)) = rev f).
  { rewrite rev_app_distr.
    assert (Hu : ∀ r k, "/"%char ∉ r →
                 (k = [] ∨ ∃ k', k = "/"%char :: k') →
                 Filepath.untilSlash (r ++ k) = r).
    { intros r k Hr Hk. induction r as [|x r IH]; simpl.
      - by destruct Hk as [->|[k' ->]].
      - unfold Filepath.isSlash. rewrite is_byte_spec.
        rewrite bool_decide_eq_false_2.
        + f_equal. apply IH. intros ?. apply Hr. by apply list_elem_of_further.
        + intros ->. apply Hr. apply list_elem_of_here. }
    apply Hu.
    - by rewrite list_elem_of_In, <- in_rev, <- list_elem_of_In.
    - destruct Hp as [->|[d ->]]; [by left|right].
      rewrite rev_app_distr. by eexists. }
  rewrite E, rev_involutive, length_app.
  replace (length p + length f - length f)%nat with (length p) by lia.
  by rewrite take_app_length.
Qed.

Lemma joinPrefix_shape a : joinPrefix a = [] ∨ ∃ d, joinPrefix a = d ++ str "/".
Proof.
  unfold joinPrefix. destruct a as [|c0 a]; [by left|].
  set (st := fold_left _ _ _).
  destruct (rev st) as [|g l] eqn:E.
  - destruct (Filepath.isSlash c0); [right; by exists []|by left].
  - right. eexists. by rewrite app_assoc.
Qed.

Section EnumerationFacts.
Context {World : Type} `{!OS World}.

(** With a source directory whose cleaned name has no glob
    metacharacters, [Glob] reads that one directory. *)
Lemma Glob_plain_directory (w : World) fromPath :
  Filepath.hasMeta (joinPrefix fromPath) = false →
  Glob w (Filepath.Join fromPath (str "*.jpg"))
  = glob w (cleanGlobPath (joinPrefix fromPath)) (str "*.jpg") [].
Proof.
  intros Hm. rewrite Join_plain by (split_and!; try done; vm_compute;
    intros H; repeat (apply elem_of_cons in H as [H|H]; [discriminate|]);
    by apply elem_of_nil in H).
  set (P := joinPrefix fromPath) in *.
  unfold Glob. change pathSeparatorsLimit with (S (Z.to_nat 9999)).
  cbn [globWithLimit]. rewrite Match_wellformed by done.
  rewrite hasMeta_app, Hm. cbn [orb negb].
  change (Filepath.hasMeta (str "*.jpg")) with true. cbn iota.
  rewrite Split_dir; [|apply joinPrefix_shape|].
  - assert (Hc : Filepath.hasMeta (cleanGlobPath P) = false).
    { unfold cleanGlobPath. repeat case_bool_decide; [done|done|].
      destruct (joinPrefix_shape fromPath) as [E|[d E]]; fold P in E; [done|].
      rewrite E, length_app. change (length (str "/")) with 1%nat.
      replace (length d + 1 - 1)%nat with (length d) by lia.
      rewrite take_app_length. rewrite E, hasMeta_app in Hm.
      by apply orb_false_iff in Hm as [? _]. }
    by rewrite Hc.
  - vm_compute. intros H. repeat (apply elem_of_cons in H as [H|H]; [discriminate|]).
    by apply elem_of_nil in H.
Qed.

(** Then the files [main] goes on with are the entries of that
    directory whose names end in the literal [.jpg]. *)
Lemma main_enumerates_directory (w : World) fromPath toPath sizesString
    files sizes to names :
  Filepath.hasMeta (joinPrefix fromPath) = false →
  (main w fromPath toPath sizesString).2 = StartPipeline files sizes to →
  os_Stat (os_MkdirAll w toPath).1 (cleanGlobPath (joinPrefix fromPath)) = StatOk true →
  os_Readdirnames (os_MkdirAll w toPath).1 (cleanGlobPath (joinPrefix fromPath))
  = Some names →
  ∀ f, f ∈ files
       ↔ ∃ n, n ∈ names ∧ jpgMatch n = true
              ∧ f = Filepath.Join (cleanGlobPath (joinPrefix fromPath)) n.
Proof.
  intros Hm Hmain Hs Hr. unfold main, validate in Hmain.
  destruct (os_MkdirAll w toPath) as [w1 e3]. simpl in Hs, Hr.
  rewrite Glob_plain_directory in Hmain by done.
  destruct (glob_jpg w1 _ names Hs Hr) as [He Hf].
  destruct (glob w1 _ _ _) as [fs ge]. simpl in He, Hf. subst ge.
  unfold log_Fatal in Hmain.
  repeat case_match; simpl in Hmain; try discriminate.
  by injection Hmain as <- _ _.
Qed.

End EnumerationFacts.

Example main_enumerates_directory_ex :
  Filepath.hasMeta (joinPrefix (str "src")) = false
  ∧ cleanGlobPath (joinPrefix (str "src")) = str "src"
  ∧ (main world0 (str "src") (str "out") (str "50")).2
    = StartPipeline [str "src/a.jpg"; str "src/b.jpg"] [50] (str "out").
Proof. vm_compute. done. Qed.

(** C10: the source directory is not read as it is named.  [main]
    hands [filepath.Join(fromPath, "*.jpg")] to [filepath.Glob], which
    treats the directory part as a pattern too, while
    [validateDirectory] has checked [fromPath] literally.  With the
    source directory [img[1]] holding [a.jpg], validation passes, yet
    the files selected are those of the directory [img1], and without
    such a directory the run dies with "no images to resize". *)
Theorem glob_reads_source_directory_as_pattern :
  validateDirectory world1 (str "img[1]") true = None
  ∧ os_Readdirnames world1 (str "img[1]") = Some [str "a.jpg"]
  ∧ jpgMatch (str "a.jpg") = true
  ∧ (main world1 (str "img[1]") (str "out") (str "50")).2
    = StartPipeline [str "img1/x.jpg"] [50] (str "out")
  ∧ validateDirectory world2 (str "img[1]") true = None
  ∧ os_Readdirnames world2 (str "img[1]") = Some [str "a.jpg"]
  ∧ (main world2 (str "img[1]") (str "out") (str "50")).2
    = Exit 1 FatalNoImages.
Proof. vm_compute. repeat split. Qed.

(** * Further properties of the code *)

(** ** [try] and the validation in [main] *)

(** X1: [try] hands the first non-nil error of its arguments to
    [log.Fatal], and returns only when all of them are nil. *)
Theorem try_reports_first_error (errs : list (option error)) :
  match try errs with
  | Some e => ∃ l1 l2, errs = l1 ++ Some e :: l2 ∧ Forall (λ x, x = None) l1
  | None => Forall (λ x, x = None) errs
  end.
Proof.
  induction errs as [|[e|] errs IH]; simpl.
  - constructor.
  - by exists [], errs.
  - destruct (try errs) as [e|].
    + destruct IH as (l1 & l2 & -> & Hl). exists (None :: l1), l2.
      split; [done|by constructor].
    + by constructor.
Qed.

Section ValidationFacts.
Context {World : Type} `{!OS World}.
Implicit Types (w : World) (fromPath toPath sizesString : gostring).

Lemma validateDirectory_None w path mustExist :
  validateDirectory w path mustExist = None
  ↔ os_Stat w path = StatOk true
    ∨ (os_Stat w path = StatNotExist ∧ mustExist = false).
Proof.
  unfold validateDirectory.
  destruct (os_Stat w path) as [[]| |], mustExist; simpl;
    intuition congruence.
Qed.

(** X2: [main] gets past its validation only when the source is an
    existing directory, the destination is a directory or does not
    exist, and [os.MkdirAll] of the destination succeeded.  Otherwise
    it dies with the first error among: validation of the source,
    validation of the destination, [os.MkdirAll]. *)
Theorem main_validation_outcome w fromPath toPath sizesString :
  match (main w fromPath toPath sizesString).2 with
  | Exit status (FatalErr e) =>
      status = 1
      ∧ (validateDirectory w fromPath true = Some e
         ∨ (validateDirectory w fromPath true = None
            ∧ validateDirectory w toPath false = Some e)
         ∨ (validateDirectory w fromPath true = None
            ∧ validateDirectory w toPath false = None
            ∧ (os_MkdirAll w toPath).2 = Some e))
  | _ =>
      os_Stat w fromPath = StatOk true
      ∧ (os_Stat w toPath = StatOk true ∨ os_Stat w toPath = StatNotExist)
      ∧ (os_MkdirAll w toPath).2 = None
  end.
Proof.
  pose proof (validateDirectory_None w fromPath true) as H1.
  pose proof (validateDirectory_None w toPath false) as H2.
  unfold main, validate.
  destruct (os_MkdirAll w toPath) as [w1 e3]. simpl.
  destruct (validateDirectory w fromPath true) as [e1|]; simpl; [by eauto|].
  destruct (validateDirectory w toPath false) as [e2|]; simpl; [by eauto 6|].
  destruct e3 as [e3|]; simpl; [by eauto 8|].
  apply proj1 in H1, H2. specialize (H1 eq_refl). specialize (H2 eq_refl).
  assert (os_Stat w fromPath = StatOk true
          ∧ (os_Stat w toPath = StatOk true ∨ os_Stat w toPath = StatNotExist)
          ∧ @None error = None) as Hok.
  { split_and!; [|tauto|done]. by destruct H1 as [?|[_ ?]]. }
  unfold log_Fatal. repeat case_match; simplify_eq; done.
Qed.

(** X3: the three arguments of [try] are evaluated before [try] runs,
    so every run of [main] starts with the two [os.Stat] calls and the
    [os.MkdirAll] of the destination, and the file system it leaves is
    the one after that [os.MkdirAll], even when the run dies on the
    validation of the source directory. *)
Theorem main_always_makes_destination w fromPath toPath sizesString :
  (main w fromPath toPath sizesString).1.1 = (os_MkdirAll w toPath).1
  ∧ take 3 (main w fromPath toPath sizesString).1.2
    = [CallStat fromPath; CallStat toPath; CallMkdirAll toPath]
  ∧ ∀ e, validateDirectory w fromPath true = Some e →
         main w fromPath toPath sizesString
         = ((os_MkdirAll w toPath).1,
            [CallStat fromPath; CallStat toPath; CallMkdirAll toPath],
            Exit 1 (FatalErr e)).
Proof.
  unfold main, validate.
  destruct (os_MkdirAll w toPath) as [w1 e3]. simpl.
  split_and!.
  - unfold log_Fatal. by repeat case_match.
  - unfold log_Fatal. by repeat case_match.
  - by intros e ->.
Qed.

(** X4: when [main] starts the pipeline, it does so on the destination
    as given, on the non-empty list [parseSizes] returned and on the
    non-empty list [filepath.Glob] returned for [fromPath/*.jpg] on
    the file system left by [os.MkdirAll], after exactly four calls to
    the operating system. *)
Theorem main_starts_pipeline_on w fromPath toPath sizesString files sizes to :
  (main w fromPath toPath sizesString).2 = StartPipeline files sizes to →
  to = toPath
  ∧ parseSizes sizesString = inl sizes ∧ sizes ≠ []
  ∧ Glob (os_MkdirAll w toPath).1 (Filepath.Join fromPath (str "*.jpg"))
    = (files, None)
  ∧ files ≠ []
  ∧ (main w fromPath toPath sizesString).1.2
    = [CallStat fromPath; CallStat toPath; CallMkdirAll toPath;
       CallGlob (Filepath.Join fromPath (str "*.jpg"))].
Proof.
  unfold main, validate.
  destruct (os_MkdirAll w toPath) as [w1 e3]. simpl.
  unfold log_Fatal. intros Hm.
  repeat case_match; simplify_eq/=.
  split_and!; try done.
  - by intros ->.
  - by intros ->.
Qed.

End ValidationFacts.

Lemma main_starts_pipeline_on_witness :
  (main world0 (str "src") (str "out") (str "50,100")).2
  = StartPipeline [str "src/a.jpg"; str "src/b.jpg"] [50; 100] (str "out")
  ∧ parseSizes (str "50,100") = inl [50; 100].
Proof.
  assert (H : (main world0 (str "src") (str "out") (str "50,100")).2
              = StartPipeline [str "src/a.jpg"; str "src/b.jpg"] [50; 100] (str "out"))
    by (vm_compute; reflexivity).
  split; [exact H|].
  exact (proj1 (proj2 (main_starts_pipeline_on _ _ _ _ _ _ _ H))).
Defined.

(** ** [parseSizes]: what it accepts, what it returns *)

Lemma parseUintLoop_spec s n :
  0 ≤ n < 2 ^ 64 →
  match Strconv.parseUintLoop s n with
  | (un, None) => Forall (λ c, Strconv.isDigit c = true) s ∧ 0 ≤ un < 2 ^ 64
  | (un, Some Strconv.ErrRange) => un = Strconv.maxUint64
  | (_, Some Strconv.ErrSyntax) => True
  end.
Proof.
  revert n. induction s as [|c s IH]; intros n Hn; cbn [Strconv.parseUintLoop].
  - split; [constructor|done].
  - destruct (Strconv.isDigit c) eqn:Hc; simpl; [|done].
    destruct (_ <=? n); [done|].
    destruct (_ || _); [done|].
    match goal with |- context [Strconv.parseUintLoop s ?m] =>
      specialize (IH m); destruct (Strconv.parseUintLoop s m) as [un [[]|]] end;
      try done.
    + apply IH. apply Z.mod_pos_bound. lia.
    + destruct IH as [IH1 IH2]; [apply Z.mod_pos_bound; lia|].
      split; [by constructor|done].
Qed.

(** A successful [ParseInt] has read an optionally signed, non-empty
    string of digits, and its value fits a 64-bit [int]. *)
Lemma ParseInt10_ok t i :
  Strconv.ParseInt10 t = (i, None) →
  - 2 ^ 63 ≤ i < 2 ^ 63 ∧ signed_digits t.
Proof.
  destruct t as [|c s']; [discriminate|]. unfold Strconv.ParseInt10.
  set (body := if is_byte c "+" || is_byte c "-" then s' else c :: s').
  assert (Hb : signed_digits (c :: s') ∨ ¬ Forall (λ c, Strconv.isDigit c = true) body
               ∨ body = []).
  { unfold signed_digits, body. rewrite !is_byte_spec.
    destruct (decide (c = "+"%char)) as [->|H1].
    - rewrite bool_decide_eq_true_2 by done. simpl.
      destruct s' as [|c' s']; [auto|].
      destruct (decide (Forall (λ c, Strconv.isDigit c = true) (c' :: s')));
        [left|auto].
      exists (str "+"), (c' :: s'). split_and!; auto.
    - rewrite (bool_decide_eq_false_2 (c = "+"%char)) by done. simpl.
      destruct (decide (c = "-"%char)) as [->|H2].
      + rewrite bool_decide_eq_true_2 by done.
        destruct s' as [|c' s']; [auto|].
        destruct (decide (Forall (λ c, Strconv.isDigit c = true) (c' :: s')));
          [left|auto].
        exists (str "-"), (c' :: s'). split_and!; auto.
      + rewrite bool_decide_eq_false_2 by done.
        destruct (decide (Forall (λ c, Strconv.isDigit c = true) (c :: s')));
          [left|auto].
        exists [], (c :: s'). split_and!; auto. }
  clearbody body. unfold Strconv.ParseUint10.
  pose proof (parseUintLoop_spec body 0 ltac:(lia)) as Hu.
  destruct body as [|c0 body0]; [discriminate|].
  assert (Hne : c0 :: body0 ≠ []) by done. revert Hne Hb Hu.
  generalize (c0 :: body0). clear c0 body0. intros body Hne Hb Hu.
  destruct (Strconv.parseUintLoop body 0) as [un [[]|]]; [discriminate| |].
  - subst un. unfold Strconv.maxUint64, Strconv.IntSize.
    destruct (is_byte c "-"); simpl; discriminate.
  - destruct Hu as [Hd Hr]. unfold Strconv.IntSize.
    change (2 ^ (64 - 1)) with (2 ^ 63).
    destruct (is_byte c "-"); simpl.
    + destruct (2 ^ 63 <? un) eqn:E; [discriminate|]. intros [= <-].
      apply Z.ltb_ge in E. split; [lia|]. by destruct Hb as [?|[?|?]].
    + destruct (2 ^ 63 <=? un) eqn:E; [discriminate|]. intros [= <-].
      apply Z.leb_gt in E. split; [lia|]. by destruct Hb as [?|[?|?]].
Qed.

Lemma parseToken_shape s t :
  match parseToken s t with
  | inl i => Strconv.ParseInt10 t = (i, None) ∧ 0 ≤ i
  | inr e => bad_token t
             ∧ (e = ErrNotValidSize s ∨ e = ErrSizeRange s
                ∨ ∃ i, e = ErrLessThanZero i ∧ - 2 ^ 63 ≤ i < 0)
  end.
Proof.
  destruct (parseToken s t) as [i|e] eqn:E; [by apply parseToken_good in E|].
  unfold parseToken, bad_token in *.
  destruct (Strconv.ParseInt10 t) as [i err] eqn:Ep. simpl.
  repeat case_bool_decide; simplify_eq; [split; [by left|auto]..|].
  destruct (i <? 0) eqn:Hi; [|discriminate]. injection E as <-.
  apply Z.ltb_lt in Hi. split; [by right|]. right; right. exists i. split; [done|].
  destruct err as [[]|]; try done.
  apply ParseInt10_ok in Ep as [? _]. lia.
Qed.

Lemma parseSizesLoop_app s ts1 ts2 acc :
  parseSizesLoop s (ts1 ++ ts2) acc
  = match parseSizesLoop s ts1 acc with
    | inl l => parseSizesLoop s ts2 l
    | inr e => inr e
    end.
Proof.
  revert acc. induction ts1 as [|t ts1 IH]; intros acc; simpl; [done|].
  destruct (parseToken s t); [apply IH|done].
Qed.

(** What a successful parse returns does not depend on the string the
    error messages would quote, nor, but as a prefix, on the values
    already collected. *)
Lemma parseSizesLoop_inl s s' ts acc acc' l :
  parseSizesLoop s ts acc = inl (acc ++ l) →
  parseSizesLoop s' ts acc' = inl (acc' ++ l).
Proof.
  intros H. pose proof H as H'. apply parseSizesLoop_ok in H' as [E HF].
  apply app_inv_head in E. subst l.
  destruct (parseSizesLoop_total s' ts acc') as [l' Hl'].
  { eapply Forall_impl; [exact HF|]. by intros ? [? _]. }
  rewrite Hl'. by apply parseSizesLoop_ok in Hl' as [-> _].
Qed.

Lemma FieldsFunc_app_sep f a c b :
  f c = true →
  Strings.FieldsFunc (a ++ c :: b) f = Strings.FieldsFunc a f ++ Strings.FieldsFunc b f.
Proof.
  intros Hc. unfold Strings.FieldsFunc. by rewrite cut_app_sep, List.filter_app.
Qed.

Lemma elem_of_cut f s c :
  c ∈ s → f c = true ∨ ∃ t, t ∈ Strings.cut f s ∧ c ∈ t.
Proof.
  induction s as [|c0 s IH]; [by intros ?%elem_of_nil|].
  intros [->|Hin]%elem_of_cons; simpl.
  - destruct (f c0) eqn:E; [by left|right].
    destruct (Strings.cut f s) as [|h tl]; eexists; split; constructor.
  - destruct (IH Hin) as [?|(t & Ht & Hc)]; [by left|right].
    destruct (f c0); [exists t; split; [by constructor|done]|].
    destruct (Strings.cut f s) as [|h tl]; [by apply elem_of_nil in Ht|].
    apply elem_of_cons in Ht as [->|Ht].
    + exists (c0 :: h). split; by constructor.
    + exists t. split; [by constructor|done].
Qed.

Lemma elem_of_tokens s c : c ∈ s → c = ","%char ∨ ∃ t, t ∈ tokens s ∧ c ∈ t.
Proof.
  intros [Hc|(t & Ht & Hc)]%(elem_of_cut isComma).
  - left. unfold isComma in Hc. rewrite is_byte_spec in Hc.
    by apply bool_decide_eq_true in Hc.
  - right. exists t. split; [|done]. unfold tokens, Strings.FieldsFunc.
    apply list_elem_of_In, filter_In. split; [by apply list_elem_of_In|].
    destruct t; [by apply elem_of_nil in Hc|done].
Qed.

(** X5: every size [parseSizes] returns lies between 0 and the largest
    64-bit [int]: the conversion [int(i)] of line 112 loses nothing. *)
Theorem parseSizes_values_fit_int (s : gostring) (l : list Z) :
  parseSizes s = inl l → Forall (λ z, 0 ≤ z < 2 ^ 63) l.
Proof.
  intros H. apply parseSizesLoop_ok in H as [-> HF]. simpl.
  apply Forall_fmap. eapply Forall_impl; [exact HF|].
  intros t [Hb Ht]. simpl. split; [done|].
  destruct (Strconv.ParseInt10 t) as [i [e|]] eqn:E.
  - destruct Hb. left. by rewrite E.
  - apply ParseInt10_ok in E as [? _]. simpl. lia.
Qed.

Lemma parseSizes_values_fit_int_witness :
  parseSizes (str "50,9223372036854775807") = inl [50; 9223372036854775807]
  ∧ Forall (λ z, 0 ≤ z < 2 ^ 63) [50; 9223372036854775807].
Proof.
  assert (H : parseSizes (str "50,9223372036854775807")
              = inl [50; 9223372036854775807]) by (vm_compute; reflexivity).
  split; [exact H|]. exact (parseSizes_values_fit_int _ _ H).
Defined.

(** X6: [parseSizes] accepts a string only if each of its
    comma-delimited tokens is an optional sign followed by decimal
    digits; in particular the string holds nothing but digits, signs
    and commas: no blank after a comma, no unit, no decimal point. *)
Theorem parseSizes_accepts_only_signed_digits (s : gostring) (l : list Z) :
  parseSizes s = inl l →
  Forall signed_digits (tokens s)
  ∧ Forall (λ c, c = ","%char ∨ c = "+"%char ∨ c = "-"%char
                 ∨ Strconv.isDigit c = true) s.
Proof.
  intros H. apply parseSizesLoop_ok in H as [_ HF]. fold (tokens s) in HF.
  assert (Ht : Forall signed_digits (tokens s)).
  { eapply Forall_impl; [exact HF|]. intros t [Hb _]. simpl in Hb.
    destruct (Strconv.ParseInt10 t) as [i [e|]] eqn:E.
    - destruct Hb. left. by rewrite E.
    - by apply ParseInt10_ok in E as [_ ?]. }
  split; [done|]. apply Forall_forall. intros c Hc.
  apply elem_of_tokens in Hc as [->|(t & Hin & Hc)]; [by left|right].
  rewrite Forall_forall in Ht. destruct (Ht t Hin) as (sg & ds & -> & Hs & _ & Hd).
  apply elem_of_app in Hc as [Hc|Hc].
  - destruct Hs as [-> | [-> | ->]].
    + by apply elem_of_nil in Hc.
    + apply list_elem_of_singleton in Hc. auto.
    + apply list_elem_of_singleton in Hc. auto.
  - rewrite Forall_forall in Hd. auto.
Qed.

Lemma parseSizes_accepts_only_signed_digits_witness :
  parseSizes (str "50,+7,-0") = inl [50; 7; 0]
  ∧ Forall signed_digits (tokens (str "50,+7,-0")).
Proof.
  assert (H : parseSizes (str "50,+7,-0") = inl [50; 7; 0])
    by (vm_compute; reflexivity).
  split; [exact H|]. exact (proj1 (parseSizes_accepts_only_signed_digits _ _ H)).
Defined.

(** X7: size lists compose: two lists joined by a comma are accepted
    exactly when both are, and the result is the concatenation. *)
Theorem parseSizes_comma_concat (a b : gostring) (l : list Z) :
  parseSizes (a ++ str "," ++ b) = inl l
  ↔ ∃ la lb, parseSizes a = inl la ∧ parseSizes b = inl lb ∧ l = la ++ lb.
Proof.
  unfold parseSizes. change (a ++ str "," ++ b) with (a ++ ","%char :: b).
  rewrite FieldsFunc_app_sep by done. rewrite parseSizesLoop_app.
  set (ta := Strings.FieldsFunc a isComma). set (tb := Strings.FieldsFunc b isComma).
  split.
  - intros H.
    destruct (parseSizesLoop _ ta []) as [la|] eqn:Ea; [|done].
    pose proof H as H'. apply parseSizesLoop_ok in H' as [-> HF].
    destruct (parseSizesLoop_total b tb []) as [lb Eb].
    { eapply Forall_impl; [exact HF|]. by intros ? [? _]. }
    exists la, lb. split_and!.
    + exact (parseSizesLoop_inl (a ++ ","%char :: b) a ta [] [] la Ea).
    + done.
    + by apply parseSizesLoop_ok in Eb as [-> _].
  - intros (la & lb & Ea & Eb & ->).
    rewrite (parseSizesLoop_inl a (a ++ ","%char :: b) ta [] [] la Ea). simpl.
    exact (parseSizesLoop_inl b (a ++ ","%char :: b) tb [] la lb Eb).
Qed.

(** X8: when [parseSizes] fails, the error is that of the first token
    it rejects, the tokens before it being fine; the messages for a
    malformed and for an out-of-range token quote the whole string
    [s] (lines 105 and 107 format [s], not [t]), and a reported
    negative value is a 64-bit one. *)
Theorem parseSizes_error_of_first_bad_token (s : gostring) (e : error) :
  parseSizes s = inr e →
  (e = ErrNotValidSize s ∨ e = ErrSizeRange s
   ∨ ∃ i, e = ErrLessThanZero i ∧ - 2 ^ 63 ≤ i < 0)
  ∧ ∃ ts1 t ts2, tokens s = ts1 ++ t :: ts2
                 ∧ Forall (λ u, ¬ bad_token u) ts1
                 ∧ bad_token t ∧ parseToken s t = inr e.
Proof.
  unfold parseSizes. fold (tokens s). generalize (@nil Z).
  induction (tokens s) as [|t ts IH]; intros acc; simpl; [done|].
  pose proof (parseToken_shape s t) as Ht.
  destruct (parseToken s t) as [i|e'] eqn:E.
  - intros H. destruct (IH _ H) as [He (ts1 & u & ts2 & -> & HF & Hu)].
    split; [done|]. exists (t :: ts1), u, ts2. split_and!; try done; try apply Hu.
    constructor; [|done]. destruct Ht as [Ht Hi]. unfold bad_token. rewrite Ht.
    simpl. intros [?|?]; [done|lia].
  - intros [= ->]. destruct Ht as [Hb He]. split; [done|].
    by exists [], t, ts.
Qed.

Lemma parseSizes_error_of_first_bad_token_witness :
  parseSizes (str "50,-3,x") = inr (ErrLessThanZero (-3))
  ∧ ∃ ts1 t ts2, tokens (str "50,-3,x") = ts1 ++ t :: ts2
                 ∧ Forall (λ u, ¬ bad_token u) ts1
                 ∧ bad_token t
                 ∧ parseToken (str "50,-3,x") t = inr (ErrLessThanZero (-3)).
Proof.
  assert (H : parseSizes (str "50,-3,x") = inr (ErrLessThanZero (-3)))
    by (vm_compute; reflexivity).
  split; [exact H|]. exact (proj2 (parseSizes_error_of_first_bad_token _ _ H)).
Defined.

(** *** Printing a size and parsing it again *)

Lemma uval_of_uint_acc d acc :
  Z.pos (Pos.of_uint_acc d acc) = uval d (Z.pos acc).
Proof.
  revert acc. induction d as [|d IH|d IH|d IH|d IH|d IH|d IH|d IH|d IH|d IH|d IH];
    intros acc; simpl; [done|rewrite IH; f_equal; lia..].
Qed.

Lemma uval_of_uint d : Z.of_N (Pos.of_uint d) = uval d 0.
Proof.
  induction d; simpl; [done|done|apply uval_of_uint_acc..].
Qed.

Lemma uval_mono d n : 0 ≤ n → n ≤ uval d n.
Proof.
  revert n. induction d as [|d IH|d IH|d IH|d IH|d IH|d IH|d IH|d IH|d IH|d IH];
    intros n Hn; simpl; [lia|(etrans; [|apply IH]; lia)..].
Qed.

(** One turn of the loop of [ParseUint] on a digit, when nothing
    overflows. *)
Lemma parseUintLoop_digit c s n k :
  Strconv.isDigit c = true → byte_of c - byte_of "0" = k → 0 ≤ k ≤ 9 →
  0 ≤ n → 10 * n + k < 2 ^ 64 →
  Strconv.parseUintLoop (c :: s) n = Strconv.parseUintLoop s (10 * n + k).
Proof.
  intros Hc Hk Hk9 Hn Hlt. cbn [Strconv.parseUintLoop]. rewrite Hc, Hk.
  cbn [negb]. unfold Strconv.maxUint64.
  replace (n * 10) with (10 * n) by lia.
  rewrite (Z.mod_small (10 * n)) by lia. rewrite Z.mod_small by lia.
  change ((2 ^ 64 - 1) / 10 + 1) with 1844674407370955162.
  destruct (Z.leb_spec 1844674407370955162 n); [lia|].
  destruct (Z.ltb_spec (10 * n + k) (10 * n)); [lia|].
  destruct (Z.ltb_spec (2 ^ 64 - 1) (10 * n + k)); [lia|]. done.
Qed.

Lemma parseUintLoop_uval d n :
  0 ≤ n → uval d n < 2 ^ 64 →
  Strconv.parseUintLoop (str (NilEmpty.string_of_uint d)) n = (uval d n, None).
Proof.
  revert n. induction d as [|d IH|d IH|d IH|d IH|d IH|d IH|d IH|d IH|d IH|d IH];
    intros n Hn Hlt; [done|..];
    unfold str; cbn [NilEmpty.string_of_uint list_ascii_of_string uval] in Hlt |- *;
    change (list_ascii_of_string (NilEmpty.string_of_uint d))
      with (str (NilEmpty.string_of_uint d));
    lazymatch type of Hlt with
    | uval d (10 * n + ?k) < _ =>
        pose proof (uval_mono d (10 * n + k) ltac:(lia));
        rewrite (parseUintLoop_digit _ _ n k) by (first [reflexivity | lia]);
        apply IH; lia
    | uval d (10 * n) < _ =>
        pose proof (uval_mono d (10 * n) ltac:(lia));
        rewrite (parseUintLoop_digit _ _ n 0) by (first [reflexivity | lia]);
        rewrite Z.add_0_r; apply IH; lia
    end.
Qed.

Lemma isDigit_not_sign c :
  Strconv.isDigit c = true → is_byte c "+" = false ∧ is_byte c "-" = false.
Proof.
  intros Hc. rewrite !is_byte_spec.
  split; apply bool_decide_eq_false_2; intros ->; discriminate.
Qed.

Lemma string_of_uint_head d :
  d ≠ Decimal.Nil →
  ∃ c s, str (NilEmpty.string_of_uint d) = c :: s ∧ Strconv.isDigit c = true.
Proof. destruct d; [done|..]; intros _; eexists _, _; split; reflexivity. Qed.

Lemma NilZero_string_of_uint d :
  d ≠ Decimal.Nil → NilZero.string_of_uint d = NilEmpty.string_of_uint d.
Proof. by destruct d. Qed.

Lemma ParseUint10_to_uint p :
  Z.pos p < 2 ^ 64 →
  Strconv.ParseUint10 (str (NilEmpty.string_of_uint (Pos.to_uint p)))
  = (Z.pos p, None).
Proof.
  intros Hp. pose proof (DecimalPos.Unsigned.of_to p) as E.
  apply (f_equal Z.of_N) in E. rewrite uval_of_uint in E. simpl in E.
  destruct (string_of_uint_head (Pos.to_uint p)) as (c & s & Hs & _).
  { apply DecimalPos.Unsigned.to_uint_nonnil. }
  unfold Strconv.ParseUint10. rewrite Hs, <- Hs.
  rewrite parseUintLoop_uval by lia. by rewrite E.
Qed.

(** [strconv.ParseInt] reads back what [%d] prints, for every 64-bit
    integer. *)
Lemma ParseInt10_Itoa z :
  - 2 ^ 63 ≤ z < 2 ^ 63 → Strconv.ParseInt10 (Strconv.Itoa z) = (z, None).
Proof.
  intros Hz. destruct z as [|p|p]; [done|..]; unfold Strconv.Itoa; simpl.
  - rewrite NilZero_string_of_uint by apply DecimalPos.Unsigned.to_uint_nonnil.
    pose proof (ParseUint10_to_uint p ltac:(lia)) as Hu.
    destruct (string_of_uint_head (Pos.to_uint p)) as (c & s & Hs & Hc).
    { apply DecimalPos.Unsigned.to_uint_nonnil. }
    rewrite Hs in *. unfold Strconv.ParseInt10.
    destruct (isDigit_not_sign c Hc) as [-> ->]. cbn [orb negb andb].
    rewrite Hu. unfold Strconv.IntSize. change (2 ^ (64 - 1)) with (2 ^ 63).
    destruct (Z.leb_spec (2 ^ 63) (Z.pos p)); [lia|done].
  - rewrite NilZero_string_of_uint by apply DecimalPos.Unsigned.to_uint_nonnil.
    pose proof (ParseUint10_to_uint p ltac:(lia)) as Hu.
    change (str (String "-" ?x)) with ("-"%char :: str x).
    unfold Strconv.ParseInt10.
    change (is_byte "-" "-") with true. change (is_byte "-" "+") with false.
    cbn [orb negb andb]. rewrite Hu.
    unfold Strconv.IntSize. change (2 ^ (64 - 1)) with (2 ^ 63).
    destruct (Z.ltb_spec (2 ^ 63) (Z.pos p)); [lia|done].
Qed.

Lemma tokens_Itoa z : tokens (Strconv.Itoa z) = [Strconv.Itoa z].
Proof.
  unfold tokens, Strings.FieldsFunc. rewrite cut_plain.
  - simpl. destruct (Strconv.Itoa z) eqn:E; [|done].
    unfold Strconv.Itoa in E. destruct (Z.to_int z) as [[]|[]]; discriminate.
  - eapply Forall_impl; [apply Itoa_bytes|]. intros c Hc. unfold isComma.
    rewrite is_byte_spec. apply bool_decide_eq_false_2. intros ->.
    destruct Hc; discriminate.
Qed.

(** X9: a size printed with [%d], as line 170 prints it into the name
    of an output file, is read back by [parseSizes] as that size, for
    every value of Go's 64-bit [int]; a negative one is reported as
    such. *)
Theorem parseSizes_reads_printed_size (z : Z) :
  - 2 ^ 63 ≤ z < 2 ^ 63 →
  parseSizes (Strconv.Itoa z)
  = if 0 <=? z then inl [z] else inr (ErrLessThanZero z).
Proof.
  intros Hz. unfold parseSizes. fold (tokens (Strconv.Itoa z)).
  rewrite tokens_Itoa. simpl. unfold parseToken.
  rewrite ParseInt10_Itoa by done.
  rewrite !bool_decide_eq_false_2 by done.
  destruct (Z.ltb_spec z 0), (Z.leb_spec 0 z); try lia; done.
Qed.

Lemma parseSizes_reads_printed_size_witness :
  parseSizes (Strconv.Itoa 1024) = inl [1024]
  ∧ parseSizes (Strconv.Itoa (-7)) = inr (ErrLessThanZero (-7)).
Proof.
  split.
  - exact (parseSizes_reads_printed_size 1024 ltac:(lia)).
  - exact (parseSizes_reads_printed_size (-7) ltac:(lia)).
Defined.

(** ** Image names and output paths *)

Lemma extScan_shape r acc :
  Filepath.extScan r acc = [] ∨ ∃ e, Filepath.extScan r acc = "."%char :: e.
Proof.
  revert acc. induction r as [|c r IH]; intros acc; simpl; [by left|].
  destruct (Filepath.isSlash c); [by left|].
  destruct (is_byte c ".") eqn:E; [|apply IH].
  rewrite is_byte_spec in E. apply bool_decide_eq_true in E as ->. eauto.
Qed.

Lemma untilSlash_no_slash r : "/"%char ∉ Filepath.untilSlash r.
Proof.
  induction r as [|c r IH]; simpl; [by intros ?%elem_of_nil|].
  unfold Filepath.isSlash. rewrite is_byte_spec. case_bool_decide as Hc.
  - by intros ?%elem_of_nil.
  - intros [?|?]%elem_of_cons; [by subst|done].
Qed.

Lemma Base_no_slash p : Filepath.Base p = str "/" ∨ "/"%char ∉ Filepath.Base p.
Proof.
  unfold Filepath.Base. destruct p as [|c p].
  - right. intros H. repeat (apply elem_of_cons in H as [H|H]; [discriminate|]).
    by apply elem_of_nil in H.
  - set (r := Filepath.dropSlashes (rev (c :: p))).
    pose proof (untilSlash_no_slash r) as H.
    destruct (rev (Filepath.untilSlash r)) as [|x l] eqn:E; [by left|right].
    rewrite <- E. by rewrite list_elem_of_In, <- in_rev, <- list_elem_of_In.
Qed.

Lemma elem_of_replaceScan old s k c :
  c ∈ Strings.replaceScan old [] s k → c ∈ s.
Proof.
  revert k. induction s as [|c0 s IH]; intros k; [done|].
  cbn [Strings.replaceScan]. destruct k as [|k].
  - destruct (Strings.HasPrefix (c0 :: s) old); simpl.
    + intros H%IH. by constructor.
    + intros [->|H%IH]%elem_of_cons; by constructor.
  - intros H%IH. by constructor.
Qed.

(** The name of an image has no slash, but for a path of slashes
    only. *)
Lemma imageName_no_slash p :
  Filepath.Base p ≠ str "/" → "/"%char ∉ imageName p.
Proof.
  intros Hb. destruct (Base_no_slash p) as [?|Hs]; [done|].
  unfold imageName, Strings.ReplaceAllEmpty. case_bool_decide; [done|].
  intros Hin. by apply elem_of_replaceScan in Hin.
Qed.

Lemma TrimSuffix_app b e : Strings.TrimSuffix (b ++ e) e = b.
Proof.
  unfold Strings.TrimSuffix. rewrite rev_app_distr.
  assert (Strings.HasPrefix (rev e ++ rev b) (rev e) = true) as ->
    by (apply HasPrefix_spec; eauto).
  rewrite length_app. replace (length b + length e - length e)%nat
    with (length b) by lia. by rewrite take_app_length.
Qed.

(** X10: for a source whose file name has no dot before its
    extension, the name kept with the image is the file name without
    that extension, which is also what stripping the one trailing
    extension gives. *)
Theorem imageName_of_single_extension (p b : gostring) :
  Filepath.Base p = b ++ Filepath.Ext p → "."%char ∉ b →
  imageName p = b ∧ Strings.TrimSuffix (Filepath.Base p) (Filepath.Ext p) = b.
Proof.
  intros Hb Hdot. split; [|rewrite Hb; apply TrimSuffix_app].
  destruct (extScan_shape (rev p) []) as [He|[e He]]; fold (Filepath.Ext p) in He.
  - unfold imageName, Strings.ReplaceAllEmpty.
    rewrite He in *. rewrite bool_decide_eq_true_2 by done.
    by rewrite Hb, app_nil_r.
  - apply imageName_once; [done|]. intros k Hk. rewrite Hb, He.
    rewrite drop_app_le by lia.
    destruct (drop k b) as [|c r] eqn:Ed.
    { apply (f_equal length) in Ed. rewrite length_drop in Ed. simpl in Ed. lia. }
    simpl. rewrite is_byte_spec, bool_decide_eq_false_2; [done|].
    intros <-. apply Hdot. rewrite <- (take_drop k b), Ed, elem_of_app.
    right. by constructor.
Qed.

Lemma imageName_of_single_extension_witness :
  Filepath.Base (str "src/holiday.jpg") = str "holiday" ++ Filepath.Ext (str "src/holiday.jpg")
  ∧ imageName (str "src/holiday.jpg") = str "holiday".
Proof.
  assert (H : Filepath.Base (str "src/holiday.jpg")
              = str "holiday" ++ Filepath.Ext (str "src/holiday.jpg"))
    by (vm_compute; reflexivity).
  split; [exact H|].
  refine (proj1 (imageName_of_single_extension _ _ H _)).
  vm_compute. intros Hd.
  repeat (apply elem_of_cons in Hd as [Hd|Hd]; [discriminate|]).
  by apply elem_of_nil in Hd.
Defined.

(** X11: every output file lies directly in the destination: its path
    splits into the directory part [filepath.Join] makes of [toPath],
    the same for all outputs, and the file name [<name>_<size>.jpg]. *)
Theorem outputs_directly_in_destination (to p : gostring) (z : Z) :
  Filepath.Base p ≠ str "/" →
  Filepath.Split (outputPath to (imageName p) z)
  = (joinPrefix to, imageName p ++ str "_" ++ Strconv.Itoa z ++ str ".jpg").
Proof.
  intros Hb. apply imageName_no_slash in Hb.
  pose proof (outputName_plain _ z Hb) as Hp.
  unfold outputPath. rewrite Join_plain by done.
  apply Split_dir; [apply joinPrefix_shape|apply Hp].
Qed.

Lemma outputs_directly_in_destination_witness :
  Filepath.Split (outputPath (str "./out/") (imageName (str "src/a.jpg")) 50)
  = (str "out/", str "a_50.jpg").
Proof.
  refine (eq_trans (outputs_directly_in_destination (str "./out/") (str "src/a.jpg") 50 _) _).
  - vm_compute. discriminate.
  - vm_compute. reflexivity.
Defined.

(** X12: two resize tasks write the same file exactly when they have
    the same image name and the same size. *)
Theorem outputs_collide_only_on_name_and_size (to p p' : gostring) (z z' : Z) :
  Filepath.Base p ≠ str "/" → Filepath.Base p' ≠ str "/" →
  outputPath to (imageName p) z = outputPath to (imageName p') z'
  ↔ imageName p = imageName p' ∧ z = z'.
Proof.
  intros Hb Hb'. split.
  - apply outputPath_inj; by apply imageName_no_slash.
  - by intros [-> ->].
Qed.

Lemma outputs_collide_only_on_name_and_size_witness :
  outputPath (str "out") (imageName (str "src/a.jpg")) 50
  ≠ outputPath (str "out") (imageName (str "src/b.jpg")) 50.
Proof.
  intros E.
  apply (outputs_collide_only_on_name_and_size (str "out") (str "src/a.jpg")
           (str "src/b.jpg") 50 50) in E as [E _].
  - vm_compute in E. discriminate.
  - vm_compute. discriminate.
  - vm_compute. discriminate.
Defined.

(** ** The pipeline under failures, and what it never does *)

Section PipelineSafety.
Context {Image : Type} (c : config Image).
Implicit Types (s : state Image).

(** Every resize task has one of the sizes of the list. *)
Lemma workers_size s :
  reachable c s → Forall (λ w, w_size w ∈ sizes c) (workers s).
Proof.
  intros Hr. destruct (inv_flow_reachable c s Hr) as (recvd & Ht & _).
  apply Forall_forall. intros w Hw.
  assert (Hin : (w_img w, w_size w) ∈ tasks (workers s)).
  { unfold tasks. by apply (list_elem_of_fmap_2 (λ w, (w_img w, w_size w))). }
  assert (Hof : ∀ ds t, t ∈ tasks_of c ds → t.2 ∈ sizes c).
  { intros ds t (d & (z & -> & ?)%list_elem_of_fmap & Hd)%list_elem_of_bind. done. }
  destruct (dpc s) as [|x rest|i|] eqn:Ed; simpl.
  - rewrite Ht in Hin. by apply Hof in Hin.
  - destruct Ht as (pre & Hs & Ht). rewrite Ht in Hin.
    apply elem_of_app in Hin as [Hin|Hin].
    + by apply Hof in Hin.
    + apply list_elem_of_fmap in Hin as (z & [= _ ->] & Hz).
      rewrite Hs. apply elem_of_app. by left.
  - rewrite Ht in Hin. by apply Hof in Hin.
  - rewrite Ht in Hin. by apply Hof in Hin.
Qed.

Lemma elem_of_outputs_of_decoded f :
  f ∈ outputs_of c (decoded_from c 0 (paths c))
  ↔ ∃ p z, p ∈ paths c ∧ is_Some (decode c p) ∧ z ∈ sizes c
           ∧ f = outputPath (toPath c) (imageName p) z.
Proof.
  unfold outputs_of. rewrite list_elem_of_bind. split.
  - intros (d & (z & -> & Hz)%list_elem_of_fmap & Hd).
    apply elem_of_decoded in Hd as (p & im & Hp & Hdec & ->). simpl.
    exists p, z. split_and!; [by eapply list_elem_of_lookup_2|by eexists|done|done].
  - intros (p & z & Hp & [im Hdec] & Hz & ->).
    apply list_elem_of_lookup_1 in Hp as [i Hi].
    exists (ImageData i im (imageName p)). split.
    + apply list_elem_of_fmap. by exists z.
    + apply elem_of_decoded. by exists p, im.
Qed.

(** X13: however many load and resize tasks fail, once the final
    signal has been sent the files created are, with their
    multiplicity, the outputs of the (source, size) pairs whose source
    decoded and whose file could be created: a failure costs the
    outputs of that source, or that one output, and nothing else. *)
Theorem outputs_despite_failures s :
  reachable c s → signalled s →
  created s ≡ₚ creatable c (outputs_of c (decoded_from c 0 (paths c)))
  ∧ ∀ f, f ∈ created s
         ↔ ∃ p z, p ∈ paths c ∧ is_Some (decode c p) ∧ z ∈ sizes c
                  ∧ f = outputPath (toPath c) (imageName p) z
                  ∧ create c f = true.
Proof.
  intros Hr Hd. pose proof (signalled_created c s Hr Hd) as Hp.
  split; [done|]. intros f. rewrite Hp. unfold creatable.
  rewrite list_elem_of_filter, elem_of_outputs_of_decoded. split.
  - intros [Hc (p & z & H1 & H2 & H3 & H4)]. by exists p, z.
  - intros (p & z & H1 & H2 & H3 & H4 & H5). split; [done|]. by exists p, z.
Qed.

(** X14: at no moment of a run is there a created file other than an
    output [<toPath>/<name>_<size>.jpg] of a source of the list that
    decoded and a size of the list. *)
Theorem creates_only_outputs s f :
  reachable c s → f ∈ created s →
  ∃ p z, p ∈ paths c ∧ is_Some (decode c p) ∧ z ∈ sizes c
         ∧ f = outputPath (toPath c) (imageName p) z
         ∧ create c f = true.
Proof.
  intros Hr Hf. rewrite (inv_files_reachable c s Hr) in Hf.
  apply list_elem_of_fmap in Hf as (t & -> & Ht).
  apply list_elem_of_fmap in Ht as (w & -> & Hw).
  apply list_elem_of_filter in Hw as [Hm Hw].
  pose proof (workers_sent_ok c s Hr) as Hok.
  pose proof (workers_size s Hr) as Hsz.
  rewrite Forall_forall in Hok, Hsz.
  destruct (Hok w Hw) as [(p & im & Hp & Hdec & Hd) _].
  exists p, (w_size w). unfold task_path. simpl. rewrite Hd. simpl.
  split_and!; [by eapply list_elem_of_lookup_2|by eexists|by apply Hsz|done|].
  unfold made in Hm. unfold task_path in Hm. simpl in Hm. rewrite Hd in Hm.
  simpl in Hm. by destruct (w_stage w).
Qed.

(** X15: [readImages] closes the channel of images only when a load
    task has been started for every source and every one of them has
    returned: no load task is ever left to send on the closed
    channel. *)
Theorem images_closed_after_all_loads s :
  reachable c s → images_closed s = true →
  length (readers s) = length (paths c)
  ∧ Forall (λ r, r = RDone) (readers s).
Proof.
  intros Hr Hcl. apply inv_count_reachable in Hr.
  destruct Hr as (H1 & H2 & H3 & _). rewrite Hcl in H3.
  destruct (lpc s); try done. simpl in H2. split; [done|].
  eapply Forall_impl; [apply (count_if_all reader_reported); lia|].
  by intros [].
Qed.

(** X16: there is a run in which every source has been opened and
    decoded before any image is passed on and before any task has
    reported: [readImages] starts a load task per source at once, and
    the capacity of the channels does not limit how many decoded
    images are held at a time. *)
Theorem all_sources_loaded_at_once :
  reachable c (State (imap (readImage_start c) (paths c)) (LWait 0)
                     [] false 0 DRange 0 [] 0 0 MWait []).
Proof.
  set (n := length (paths c)).
  assert (H1 : ∀ k, (k ≤ n)%nat →
            reachable c (State (replicate k RStart) (LSpawn k)
                               [] false 0 DRange 0 [] 0 0 MWait [])).
  { induction k as [|k IH]; intros Hk; [apply rtc_refl|].
    destruct (lookup_lt_is_Some_2 (paths c) k) as [p Hp]; [fold n; lia|].
    eapply rtc_r; [apply IH; lia|].
    rewrite replicate_S_end. by eapply l_spawn. }
  assert (H2 : ∀ k, (k ≤ n)%nat →
            reachable c (State (imap (readImage_start c) (take k (paths c))
                                ++ replicate (n - k) RStart) (LWait 0)
                               [] false 0 DRange 0 [] 0 0 MWait [])).
  { induction k as [|k IH]; intros Hk.
    - rewrite take_0. simpl. rewrite Nat.sub_0_r.
      eapply rtc_r; [apply (H1 n); lia|]. apply l_spawned.
      apply lookup_ge_None_2. fold n. lia.
    - destruct (lookup_lt_is_Some_2 (paths c) k) as [p Hp]; [fold n; lia|].
      specialize (IH ltac:(lia)).
      rewrite (take_S_r _ _ p) by done. rewrite imap_app. simpl.
      rewrite length_take, Nat.add_0_r. fold n.
      replace (k `min` n)%nat with k by lia.
      rewrite <- app_assoc. simpl.
      replace (n - k)%nat with (S (n - S k)) in IH by lia. simpl in IH.
      set (rs1 := imap (readImage_start c) (take k (paths c))) in *.
      assert (Hl : length rs1 = k).
      { unfold rs1. rewrite length_imap, length_take. fold n. lia. }
      pose proof (r_start c rs1 (replicate (n - S k) RStart) (LWait 0)
                    [] false 0 DRange 0 [] 0 0 [] p) as Hstep.
      rewrite Hl in Hstep.
      eapply rtc_r; [exact IH|exact (Hstep Hp)]. }
  specialize (H2 n (Nat.le_refl _)).
  unfold n in H2. rewrite firstn_all, Nat.sub_diag, app_nil_r in H2. exact H2.
Qed.

End PipelineSafety.

Lemma outputs_despite_failures_witness :
  signalled (run config_mixed 100 init)
  ∧ created (run config_mixed 100 init)
    ≡ₚ [str "out/a_50.jpg"; str "out/b_50.jpg"; str "out/b_100.jpg"].
Proof.
  assert (H : signalled (run config_mixed 100 init)) by (vm_compute; reflexivity).
  split; [exact H|].
  exact (proj1 (outputs_despite_failures config_mixed _ (run_init_reachable _ 100) H)).
Defined.

Lemma creates_only_outputs_witness :
  ∃ p z, p ∈ paths config_mixed ∧ is_Some (decode config_mixed p)
         ∧ z ∈ sizes config_mixed
         ∧ str "out/b_50.jpg" = outputPath (toPath config_mixed) (imageName p) z
         ∧ create config_mixed (str "out/b_50.jpg") = true.
Proof.
  apply (creates_only_outputs config_mixed (run config_mixed 100 init)).
  - apply run_init_reachable.
  - vm_compute. apply list_elem_of_further, list_elem_of_here.
Defined.

Lemma images_closed_after_all_loads_witness :
  length (readers (run config_mixed 100 init)) = length (paths config_mixed)
  ∧ Forall (λ r, r = RDone) (readers (run config_mixed 100 init)).
Proof.
  apply (images_closed_after_all_loads config_mixed).
  - apply run_init_reachable.
  - vm_compute. reflexivity.
Defined.

(** ** The files [main] selects *)

Lemma cleanStep_nonempty rooted st c :
  Forall (λ x, x ≠ []) st → Forall (λ x, x ≠ []) (Filepath.cleanStep rooted st c).
Proof.
  intros H. unfold Filepath.cleanStep.
  repeat case_bool_decide; simpl; try done.
  - destruct H as [|x st Hx H]; [by destruct rooted; repeat constructor; subst|].
    case_bool_decide; [|done]. subst. by repeat constructor.
  - by constructor.
Qed.

Lemma fold_cleanStep_nonempty rooted l st :
  Forall (λ x, x ≠ []) st →
  Forall (λ x, x ≠ []) (fold_left (Filepath.cleanStep rooted) l st).
Proof.
  revert st. induction l as [|c l IH]; intros st H; simpl; [done|].
  by apply IH, cleanStep_nonempty.
Qed.

Lemma joinSlash_nonempty l :
  l ≠ [] → Forall (λ x, x ≠ []) l → Filepath.joinSlash l ≠ [].
Proof.
  destruct l as [|x l]; [done|]. intros _ H. apply Forall_cons in H as [Hx _].
  simpl. destruct l; [done|]. by destruct x.
Qed.

(** What [filepath.Join] puts before a plain last element, in terms of
    [filepath.Clean]. *)
Lemma joinPrefix_Clean a :
  (joinPrefix a = [] ∧ Filepath.Clean a = str ".")
  ∨ (joinPrefix a = str "/" ∧ Filepath.Clean a = str "/")
  ∨ (joinPrefix a = Filepath.Clean a ++ str "/" ∧ Filepath.Clean a ≠ []).
Proof.
  unfold joinPrefix, Filepath.Clean. destruct a as [|c0 a]; [by left|].
  set (rooted := Filepath.isSlash c0).
  pose proof (fold_cleanStep_nonempty rooted
                (Strings.cut Filepath.isSlash (c0 :: a)) [] ltac:(constructor)) as Hne.
  set (st := fold_left _ _ _) in *.
  assert (Hrev : Forall (λ x, x ≠ []) (rev st)).
  { apply Forall_forall. intros x Hx. rewrite Forall_forall in Hne. apply Hne.
    by rewrite list_elem_of_In, in_rev, <- list_elem_of_In. }
  destruct (rev st) as [|x l] eqn:E.
  - assert (st = []) as ->.
    { apply (f_equal (@rev _)) in E. by rewrite rev_involutive in E. }
    destruct rooted; [right; left|left]; done.
  - pose proof (joinSlash_nonempty (x :: l) ltac:(done) Hrev) as Hj.
    right; right. destruct rooted.
    + split; [by rewrite <- app_assoc|done].
    + destruct st as [|y st']; [done|]. done.
Qed.

Lemma cleanGlobPath_joinPrefix a : cleanGlobPath (joinPrefix a) = Filepath.Clean a.
Proof.
  unfold cleanGlobPath.
  destruct (joinPrefix_Clean a) as [[-> ->]|[[-> ->]|[-> Hc]]]; [done|done|].
  rewrite bool_decide_eq_false_2 by by destruct (Filepath.Clean a).
  rewrite bool_decide_eq_false_2 by by destruct (Filepath.Clean a) as [|? [|]].
  rewrite length_app. change (length (str "/")) with 1%nat.
  replace (length (Filepath.Clean a) + 1 - 1)%nat with (length (Filepath.Clean a)) by lia.
  by rewrite take_app_length.
Qed.

Lemma hasMeta_joinPrefix a :
  Filepath.hasMeta (joinPrefix a) = Filepath.hasMeta (Filepath.Clean a).
Proof.
  destruct (joinPrefix_Clean a) as [[-> ->]|[[-> ->]|[-> Hc]]]; [done|done|].
  rewrite hasMeta_app. change (Filepath.hasMeta (str "/")) with false.
  by rewrite orb_false_r.
Qed.

Lemma filter_bool {A} (f : A → bool) (P : A → Prop) `{∀ x, Decision (P x)} l :
  (∀ x, f x = true ↔ P x) → List.filter f l = filter P l.
Proof.
  intros Hf. induction l as [|x l IH]; [done|]. simpl. rewrite filter_cons.
  destruct (decide (P x)) as [Hp|Hp].
  - apply Hf in Hp. by rewrite Hp, IH.
  - destruct (f x) eqn:E; [by apply Hf in E|done].
Qed.

Lemma jpgMatch_suffix n :
  jpgMatch n = true ↔ str ".jpg" `suffix_of` n ∧ "/"%char ∉ n.
Proof.
  rewrite jpgMatch_spec. split.
  - intros (pre & -> & Hs). split; [by exists pre|].
    rewrite elem_of_app. intros [?|Hin]; [done|].
    vm_compute in Hin. repeat (apply elem_of_cons in Hin as [Hin|Hin]; [discriminate|]).
    by apply elem_of_nil in Hin.
  - intros [[pre ->] Hs]. exists pre. split; [done|].
    intros Hin. apply Hs, elem_of_app. by left.
Qed.

Section SelectionFacts.
Context {World : Type} `{!OS World}.

(** X17: for a source directory whose cleaned name has no glob
    metacharacter, the files [main] starts the pipeline on are the
    entries of that directory, as it is after [os.MkdirAll], whose
    names end in the literal [.jpg], in the sorted order of the names,
    each joined to the cleaned directory name.  Names ending in
    [.JPG] or [.jpeg] are not selected; a name that is just [.jpg]
    is. *)
Theorem main_selects_jpg_entries (w : World) fromPath toPath sizesString
    files sizes to :
  Filepath.hasMeta (Filepath.Clean fromPath) = false →
  (main w fromPath toPath sizesString).2 = StartPipeline files sizes to →
  ∃ names,
    os_Readdirnames (os_MkdirAll w toPath).1 (Filepath.Clean fromPath) = Some names
    ∧ files = Filepath.Join (Filepath.Clean fromPath)
              <$> filter (λ n, str ".jpg" `suffix_of` n ∧ "/"%char ∉ n)
                         (sortStrings names).
Proof.
  intros Hm Hmain. rewrite <- hasMeta_joinPrefix in Hm.
  rewrite <- cleanGlobPath_joinPrefix.
  unfold main, validate in Hmain.
  destruct (os_MkdirAll w toPath) as [w1 e3]. simpl.
  rewrite Glob_plain_directory in Hmain by done.
  unfold glob in Hmain. unfold log_Fatal in Hmain.
  destruct (os_Stat w1 _) as [[]| |];
    try (repeat case_match; simpl in Hmain; simplify_eq; done).
  destruct (os_Readdirnames w1 _) as [names|];
    [|repeat case_match; simpl in Hmain; simplify_eq; done].
  exists names. split; [done|].
  rewrite globNames_jpg in Hmain. simpl in Hmain.
  rewrite <- (filter_bool jpgMatch) by apply jpgMatch_suffix.
  repeat case_match; simpl in Hmain; simplify_eq. done.
Qed.

End SelectionFacts.

Lemma main_selects_jpg_entries_witness :
  ∃ names,
    os_Readdirnames (os_MkdirAll world0 (str "out")).1 (Filepath.Clean (str "src"))
    = Some names
    ∧ [str "src/a.jpg"; str "src/b.jpg"]
      = Filepath.Join (Filepath.Clean (str "src"))
        <$> filter (λ n, str ".jpg" `suffix_of` n ∧ "/"%char ∉ n) (sortStrings names).
Proof.
  apply (main_selects_jpg_entries world0 (str "src") (str "out") (str "50")
           _ [50] (str "out")).
  - vm_compute. reflexivity.
  - vm_compute. reflexivity.
Defined.

Section ListingFacts.
Context {World : Type} `{!OS World}.

Lemma glob_jpg_no_error (w : World) dir : (glob w dir (str "*.jpg") []).2 = None.
Proof.
  unfold glob. destruct (os_Stat w dir) as [[]| |]; try done.
  destruct (os_Readdirnames w dir); [|done]. by rewrite globNames_jpg.
Qed.

Lemma glob_unlistable (w : World) dir pattern :
  os_Stat w dir ≠ StatOk true ∨ os_Readdirnames w dir = None →
  glob w dir pattern [] = ([], None).
Proof.
  unfold glob. intros [Hs| ->].
  - by destruct (os_Stat w dir) as [[]| |].
  - by destruct (os_Stat w dir) as [[]| |].
Qed.

(** X18: for a source directory whose cleaned name has no glob
    metacharacter, [main] never dies with "can't get image
    filenames": [filepath.Glob] ignores I/O errors, so that a source
    directory that cannot be listed is reported, once validation and
    size parsing are passed, as "no images to resize". *)
Theorem main_unlistable_source_is_no_images (w : World)
    fromPath toPath sizesString :
  Filepath.hasMeta (Filepath.Clean fromPath) = false →
  (∀ e, (main w fromPath toPath sizesString).2 ≠ Exit 1 (FatalGlob e))
  ∧ ((validate w fromPath toPath).2 = None →
     (∃ sizes, parseSizes sizesString = inl sizes ∧ sizes ≠ []) →
     os_Stat (os_MkdirAll w toPath).1 (Filepath.Clean fromPath) ≠ StatOk true
     ∨ os_Readdirnames (os_MkdirAll w toPath).1 (Filepath.Clean fromPath) = None →
     (main w fromPath toPath sizesString).2 = Exit 1 FatalNoImages).
Proof.
  intros Hm. rewrite <- hasMeta_joinPrefix in Hm.
  rewrite <- cleanGlobPath_joinPrefix.
  unfold main, validate. destruct (os_MkdirAll w toPath) as [w1 e3]. simpl.
  rewrite Glob_plain_directory by done.
  pose proof (glob_jpg_no_error w1 (cleanGlobPath (joinPrefix fromPath))) as Hg.
  split.
  - intros e. destruct (glob w1 _ _ _) as [fs ge]. simpl in Hg. subst ge.
    unfold log_Fatal. by repeat case_match.
  - intros Hv ([|z sizes] & -> & Hne) Hl; [done|]. rewrite Hv. simpl.
    by rewrite glob_unlistable.
Qed.

End ListingFacts.

Lemma main_unlistable_source_is_no_images_witness :
  (main ([(str "src/", [str "a.jpg"])] : dirs) (str "src/") (str "out") (str "50")).2
  = Exit 1 FatalNoImages.
Proof.
  apply (main_unlistable_source_is_no_images
           ([(str "src/", [str "a.jpg"])] : dirs) (str "src/") (str "out") (str "50")).
  - vm_compute. reflexivity.
  - vm_compute. reflexivity.
  - exists [50]. split; [vm_compute; reflexivity|done].
  - left. vm_compute. discriminate.
Defined.
